(** * Session registry and connection lifecycle of the WhatsApp relay

    A shallow embedding of [src/server.ts]: the process-wide maps
    [activeSockets] and [userStores], the per-connection closure (the
    [baileysInstance] variable and the handlers a transport client has
    registered), the protocol sockets with their listeners, and the
    asynchronous handlers cut at their [await] points.

    The program is event driven.  One [step] processes one event to its next
    suspension point: an inbound transport event, an event emitted by a
    protocol socket, a timer tick, or the settlement of a promise some
    handler is suspended on.  Console logging is not modelled.  The
    protocol client, the credential store and the chat store come from
    libraries; what the relay needs of them is stated where it is used.

    Three things are left abstract.  The chat store keeps its chats sorted
    by a key of the library; here a store is the collection of its chats,
    the order of the list that holds them means nothing, and no statement
    below speaks of it.  Credential folders are told apart by their path
    strings, so a user id with a path separator, whose folder would lie
    inside another user's, is outside the model.  A [userId] is a string
    or missing. *)

From stdpp Require Import gmap strings list fin_maps.

Open Scope string_scope.
Open Scope list_scope.

(** ** Data model *)

(** A Baileys socket is identified by its creation index. *)
Abbreviation SockId := nat.

(** The values stored in [activeSockets]:
    [{ clientId: client.id, baileysInstance }]. *)
Record Entry := mkEntry {
  clientId : string;
  baileysInstance : SockId }.

(** What [groupFetchAllParticipating] returns for one group. *)
Record GroupMetadata := mkGroup {
  g_id : string;
  g_subject : string;
  g_participants : list string;
  g_creation : Z }.

(** The [Chat] objects the open branch builds and the store keeps. *)
Record Chat := mkChat {
  id : string;
  name : string;
  participants : list string;
  conversationTimestamp : Z;
  unreadCount : Z;
  messages : list string }.

(** The in-memory store of one user; only its [chats] collection is used.
    The list holds the chats of the collection; its order is not the
    order in which the store lists them. *)
Record Store := mkStore { chats : list Chat }.

Inductive Status := connected | disconnected | already_connected.

(** Notifications sent to a transport client with [client.emit]. *)
Inductive OutEvent :=
| EvQr (code : string)
| EvStatus (st : Status)
| EvMessage (payload : string)
| EvGroups (groups : list Chat)
| EvMessageStatus (status : string)
| EvError (description : string).

Inductive Connection := conn_open | conn_close | conn_connecting.

(** The payload of ['connection.update']; [statusCode] is
    [lastDisconnect?.error?.output?.statusCode]. *)
Record Update := mkUpdate {
  connection : option Connection;
  statusCode : option Z;
  qr : option string }.

(** [DisconnectReason.loggedOut]. *)
Definition loggedOut : Z := 401.

(** A protocol socket made by [makeWASocket] inside [connectWhatsApp]:
    the [userId] and [client] its ['connection.update'] listener closes
    over, the listeners attached to [socket.ev], and whether [ws.close()]
    was called. *)
Record WASocket := mkSock {
  ws_user : string;
  ws_client : string;
  on_connection_update : bool;
  on_creds_update : bool;
  on_messages_upsert : list string;
  ws_closed : bool }.

(** The closure of one [io.on('connection')] call: the [baileysInstance]
    variable and the handlers registered on [client]; a ['disconnect'] or
    ['listGroups'] handler is represented by the [userId] it closes over. *)
Record Conn := mkConn {
  listening : bool;
  instance : option SockId;
  on_disconnect : list string;
  on_listGroups : list string;
  alive : bool }.

(** Who called [connectWhatsApp]: the ['auth'] handler, or the close branch
    of a ['connection.update'] listener. *)
Inductive Caller := FromAuth | FromReconnect.

(** A handler suspended at an [await]. *)
Inductive Task :=
| AwaitAuthState (who : Caller) (client : string) (userId : string)
| AwaitVersion (who : Caller) (client : string) (userId : string)
| AwaitGroups (sock : SockId) (userId : string)
| AwaitSend (client : string) (sock : SockId) (groupId message : string).

(** How an awaited promise settles. *)
Inductive Outcome :=
| Resolved
| ResolvedGroups (groups : list GroupMetadata)
| Rejected.

(** A promise rejection nobody handles. *)
Inductive Rejection :=
| TypeError_undefined_ev (client : string)
| ConnectError (userId : string)
| GroupFetchError (userId : string)
| TypeError_destructure (client : string).

Record State := mkState {
  activeSockets : gmap string Entry;
  userStores : gmap string Store;
  conns : gmap string Conn;
  wasockets : list WASocket;
  dirs : gset string;
  files : gmap string (list Chat);
  pending : list (option Task);
  emitted : list (string * OutEvent);
  unhandled : list Rejection }.


(** ** State updates *)

Definition with_activeSockets (f : gmap string Entry → gmap string Entry) (σ : State) : State :=
  mkState (f (activeSockets σ)) (userStores σ) (conns σ) (wasockets σ) (dirs σ)
          (files σ) (pending σ) (emitted σ) (unhandled σ).

Definition with_userStores (f : gmap string Store → gmap string Store) (σ : State) : State :=
  mkState (activeSockets σ) (f (userStores σ)) (conns σ) (wasockets σ) (dirs σ)
          (files σ) (pending σ) (emitted σ) (unhandled σ).

Definition with_conns (f : gmap string Conn → gmap string Conn) (σ : State) : State :=
  mkState (activeSockets σ) (userStores σ) (f (conns σ)) (wasockets σ) (dirs σ)
          (files σ) (pending σ) (emitted σ) (unhandled σ).

Definition with_wasockets (f : list WASocket → list WASocket) (σ : State) : State :=
  mkState (activeSockets σ) (userStores σ) (conns σ) (f (wasockets σ)) (dirs σ)
          (files σ) (pending σ) (emitted σ) (unhandled σ).

Definition with_dirs (f : gset string → gset string) (σ : State) : State :=
  mkState (activeSockets σ) (userStores σ) (conns σ) (wasockets σ) (f (dirs σ))
          (files σ) (pending σ) (emitted σ) (unhandled σ).

Definition with_files (f : gmap string (list Chat) → gmap string (list Chat)) (σ : State) : State :=
  mkState (activeSockets σ) (userStores σ) (conns σ) (wasockets σ) (dirs σ)
          (f (files σ)) (pending σ) (emitted σ) (unhandled σ).

Definition with_pending (f : list (option Task) → list (option Task)) (σ : State) : State :=
  mkState (activeSockets σ) (userStores σ) (conns σ) (wasockets σ) (dirs σ)
          (files σ) (f (pending σ)) (emitted σ) (unhandled σ).

(** [client.emit(event, payload)] on the client with id [c]. *)
Definition emit (c : string) (e : OutEvent) (σ : State) : State :=
  mkState (activeSockets σ) (userStores σ) (conns σ) (wasockets σ) (dirs σ)
          (files σ) (pending σ) (emitted σ ++ [(c, e)]) (unhandled σ).

(** An exception leaves an [async] handler: its promise is rejected and
    nothing handles it. *)
Definition reject (r : Rejection) (σ : State) : State :=
  mkState (activeSockets σ) (userStores σ) (conns σ) (wasockets σ) (dirs σ)
          (files σ) (pending σ) (emitted σ) (unhandled σ ++ [r]).

(** A handler reaches an [await]: what remains of it is parked. *)
Definition suspend (t : Task) : State → State :=
  with_pending (λ l, l ++ [Some t]).

(** The task in slot [i] ran to its end. *)
Definition finish (i : nat) : State → State :=
  with_pending (λ l, <[i := None]> l).

(** The task in slot [i] moved on to its next [await]. *)
Definition park (i : nat) (t : Task) : State → State :=
  with_pending (λ l, <[i := Some t]> l).

(** ** Paths and JavaScript truthiness *)

(** [`multi_auth_info_${userId}`] *)
Definition authPath (userId : string) : string := "multi_auth_info_" +:+ userId.

(** [`./store_${userId}.json`] *)
Definition storeFilePath (userId : string) : string := "./store_" +:+ userId +:+ ".json".

(** [if (x)] for a value that is a string or [undefined]. *)
Definition truthy (x : option string) : option string :=
  match x with
  | Some (String a r) => Some (String a r)
  | _ => None
  end.

(** [s.endsWith(suffix)] *)
Definition endsWith (s suffix : string) : bool :=
  let n := String.length s in
  let m := String.length suffix in
  (m <=? n)%nat && String.eqb (String.substring (n - m) m s) suffix.

(** ** The user stores (lines 30-55) *)

(** [createUserStore]: the existing store when there is one; otherwise a
    new store read from its snapshot file (empty when the file is absent),
    registered in [userStores].  A snapshot file is represented by the
    chats a store holds once it has read it.  The interval timer the
    function starts is the [StoreFlush] event below. *)
Definition createUserStore (userId : string) (σ : State) : State :=
  match userStores σ !! userId with
  | Some _ => σ
  | None =>
      let store := mkStore (default [] (files σ !! storeFilePath userId)) in
      with_userStores (insert userId store) σ
  end.

Definition getUserStore (userId : string) (σ : State) : option Store :=
  userStores σ !! userId.

(** The chat the collection holds under id [i]. *)
Definition chats_get (i : string) (st : Store) : option Chat :=
  List.find (λ c, String.eqb (id c) i) (chats st).

(** The collection looks ids up in a plain object, which answers for the
    names every object inherits as well. *)
Definition object_prototype_names : list string :=
  ["constructor"; "__defineGetter__"; "__defineSetter__"; "hasOwnProperty";
   "__lookupGetter__"; "__lookupSetter__"; "isPrototypeOf";
   "propertyIsEnumerable"; "toString"; "valueOf"; "__proto__";
   "toLocaleString"].

Definition inherited (i : string) : bool :=
  existsb (String.eqb i) object_prototype_names.

(** Whether [store.chats.get(id)] is truthy (line 132). *)
Definition chats_has (i : string) (st : Store) : bool :=
  inherited i || bool_decide (is_Some (chats_get i st)).

(** [store.chats.insert(chat)] *)
Definition chats_insert (c : Chat) (st : Store) : Store :=
  mkStore (chats st ++ [c]).

(** The [map] of lines 122-129. *)
Definition toChat (g : GroupMetadata) : Chat :=
  mkChat (g_id g) (g_subject g) (g_participants g) (g_creation g) 0 [].

(** The [forEach] of lines 131-136. *)
Definition syncChats (cs : list Chat) (st : Store) : Store :=
  fold_left (λ st c, if chats_has (id c) st then st else chats_insert c st) cs st.

(** The filter of line 208. *)
Definition groupsOf (st : Store) : list Chat :=
  List.filter (λ c, endsWith (id c) "@g.us") (chats st).

(** ** The protocol connection (lines 67-148) *)

(** A call of [connectWhatsApp(userId)] from the closure of client [c]: it
    runs to its first [await], on [useMultiFileAuthState]. *)
Definition connectWhatsApp (who : Caller) (c userId : string) : State → State :=
  suspend (AwaitAuthState who c userId).

(** [makeWASocket] followed by the two [socket.ev.on] calls of
    [connectWhatsApp]; the new socket gets the next index. *)
Definition makeWASocket (c userId : string) : State → State :=
  with_wasockets (λ l, l ++ [mkSock userId c true true [] false]).

(** [statusCode !== DisconnectReason.loggedOut] *)
Definition shouldReconnect (up : Update) : bool :=
  match statusCode up with
  | Some code => negb (code =? loggedOut)%Z
  | None => true
  end.

(** Lines 85-88. *)
Definition relay_qr (c : string) (up : Update) (σ : State) : State :=
  match truthy (qr up) with
  | Some code => emit c (EvQr code) σ
  | None => σ
  end.

(** Lines 90-114, for the listener that closes over [c] and [userId].
    [fs.rmSync] takes the folder of [userId] away. *)
Definition on_close (c userId : string) (up : Update) (σ : State) : State :=
  match activeSockets σ !! userId with
  | None => σ
  | Some _ =>
      if shouldReconnect up then connectWhatsApp FromReconnect c userId σ
      else if bool_decide (authPath userId ∈ dirs σ) then
        emit c (EvStatus disconnected)
          (with_activeSockets (delete userId)
             (with_dirs (λ d, d ∖ {[authPath userId]}) σ))
      else σ
  end.

(** Lines 116-120, up to the [await] on [groupFetchAllParticipating]. *)
Definition on_open (s : SockId) (c userId : string) (σ : State) : State :=
  suspend (AwaitGroups s userId)
    (createUserStore userId (emit c (EvStatus connected) σ)).

(** The ['connection.update'] listener of socket [s]. *)
Definition connection_update (s : SockId) (up : Update) (σ : State) : State :=
  match wasockets σ !! s with
  | Some w =>
      if on_connection_update w then
        let σ1 := relay_qr (ws_client w) up σ in
        match connection up with
        | Some conn_close => on_close (ws_client w) (ws_user w) up σ1
        | Some conn_open => on_open s (ws_client w) (ws_user w) σ1
        | _ => σ1
        end
      else σ
  | None => σ
  end.

(** Lines 121-137: the open branch once the group listing arrived.  The
    [store] the handler got at line 119 is the one [userStores] holds for
    [userId], since a store is never removed nor replaced. *)
Definition groups_fetched (userId : string) (groups : list GroupMetadata) : State → State :=
  with_userStores (alter (syncChats (map toChat groups)) userId).

(** ** The ['auth'] handler (lines 152-218) *)

(** Lines 178-216: everything after the [try]/[catch]. *)
Definition after_try (c userId : string) (σ : State) : State :=
  match conns σ !! c with
  | Some k =>
      match instance k with
      | None => reject (TypeError_undefined_ev c) σ
      | Some b =>
          with_conns
            (insert c (mkConn (listening k) (instance k)
                         (on_disconnect k ++ [userId])
                         (on_listGroups k ++ [userId]) (alive k)))
            (with_wasockets
               (alter (λ w, mkSock (ws_user w) (ws_client w)
                              (on_connection_update w) (on_creds_update w)
                              (on_messages_upsert w ++ [c]) (ws_closed w)) b) σ)
      end
  | None => σ
  end.

(** Lines 170-171: [connectWhatsApp] returned socket [s]. *)
Definition auth_connected (c userId : string) (s : SockId) (σ : State) : State :=
  with_activeSockets (insert userId (mkEntry c s))
    (with_conns
       (alter (λ k, mkConn (listening k) (Some s) (on_disconnect k)
                      (on_listGroups k) (alive k)) c) σ).

(** Lines 172-175: [connectWhatsApp] threw. *)
Definition auth_failed (c : string) : State → State :=
  emit c (EvError "Erro ao conectar ao WhatsApp.").

(** [connectWhatsApp] returned to its caller.  The close branch drops the
    socket it gets back (line 103). *)
Definition connect_returned (who : Caller) (c userId : string) (s : SockId) (σ : State) : State :=
  match who with
  | FromAuth => after_try c userId (auth_connected c userId s σ)
  | FromReconnect => σ
  end.

(** [connectWhatsApp] rethrew (line 146).  Only the ['auth'] handler
    catches. *)
Definition connect_threw (who : Caller) (c userId : string) (σ : State) : State :=
  match who with
  | FromAuth => after_try c userId (auth_failed c σ)
  | FromReconnect => reject (ConnectError userId) σ
  end.

(** Lines 153-170, up to the [await] inside [connectWhatsApp]. *)
Definition auth (c : string) (userId : option string) (σ : State) : State :=
  match truthy userId with
  | None => emit c (EvError "UserId não fornecido.") σ
  | Some u =>
      match activeSockets σ !! u with
      | Some _ => emit c (EvStatus already_connected) σ
      | None => connectWhatsApp FromAuth c u σ
      end
  end.

(** ** The handlers an ['auth'] registers *)

(** [removeAllListeners(undefined)] and [ws.close()] on socket [b].  The
    first is a call with one argument: it removes the listeners of the
    event named [undefined], and there are none; the socket keeps every
    listener it has.  The second closes its connection. *)
Definition release (b : SockId) : State → State :=
  with_wasockets (alter (λ w, mkSock (ws_user w) (ws_client w)
                                (on_connection_update w) (on_creds_update w)
                                (on_messages_upsert w) true) b).

(** Lines 183-199: one ['disconnect'] handler of client [c]. *)
Definition teardown (c userId : string) (σ : State) : State :=
  match activeSockets σ !! userId with
  | Some userConnection =>
      if String.eqb (clientId userConnection) c then
        let σ1 := with_activeSockets (delete userId) σ in
        match conns σ !! c ≫= instance with
        | Some b => release b σ1
        | None => σ1
        end
      else σ
  | None => σ
  end.

(** Lines 202-216: one ['listGroups'] handler of client [c].  Without a
    store, reading [.chats] of [undefined] throws into the [catch], which
    logs. *)
Definition listGroups (c userId : string) (σ : State) : State :=
  match getUserStore userId σ with
  | Some store => emit c (EvGroups (groupsOf store)) σ
  | None => σ
  end.

(** ** The ['sendMessage'] handler (lines 220-236) *)

Definition sendMessage (c groupId message : string) (σ : State) : State :=
  match conns σ !! c ≫= instance with
  | None => emit c (EvError "Você não está conectado.") σ
  | Some b => suspend (AwaitSend c b groupId message) σ
  end.

(** ** The connection handler (lines 57-63) *)

(** The handlers are registered unless [client.id] is a key of
    [activeSockets].  Transport ids are unique: a connection with an id
    already seen is not modelled and leaves the state as it is. *)
Definition new_connection (c : string) (σ : State) : State :=
  match conns σ !! c with
  | Some _ => σ
  | None =>
      with_conns
        (insert c (mkConn (bool_decide (activeSockets σ !! c = None)) None [] [] true)) σ
  end.

(** ** Events and the event loop *)

(** What the event loop is handed: a transport client connects, emits one
    of the three events the relay listens to, or goes away; a protocol
    socket emits ['connection.update'] or ['messages.upsert']; an awaited
    promise settles; a store timer fires.  [ClientAuth] and
    [ClientSendMessage] carry an object: [userId] is [data.userId], absent
    when the object has no such field.  The two [NoPayload] events are the
    same events emitted with nothing, where [data] is [undefined]. *)
Inductive Event :=
| Connect (c : string)
| ClientAuth (c : string) (userId : option string)
| ClientSendMessage (c groupId message : string)
| ClientListGroups (c : string)
| ClientDisconnect (c : string)
| ConnectionUpdate (s : SockId) (up : Update)
| MessagesUpsert (s : SockId) (payload : string)
| Settle (task : nat) (r : Outcome)
| StoreFlush (userId : string)
| ClientAuthNoPayload (c : string)
| ClientSendMessageNoPayload (c : string).

(** The continuation of the task in slot [i] when its promise settles.
    [useMultiFileAuthState] leaves the credential folder in place when it
    resolves. *)
Definition resume (i : nat) (r : Outcome) (σ : State) : State :=
  match pending σ !! i with
  | Some (Some (AwaitAuthState who c u)) =>
      match r with
      | Rejected => connect_threw who c u (finish i σ)
      | _ => park i (AwaitVersion who c u) (with_dirs (λ d, {[authPath u]} ∪ d) σ)
      end
  | Some (Some (AwaitVersion who c u)) =>
      match r with
      | Rejected => connect_threw who c u (finish i σ)
      | _ => connect_returned who c u (length (wasockets σ))
               (makeWASocket c u (finish i σ))
      end
  | Some (Some (AwaitGroups s u)) =>
      match r with
      | Rejected => reject (GroupFetchError u) (finish i σ)
      | ResolvedGroups groups => groups_fetched u groups (finish i σ)
      | Resolved => groups_fetched u [] (finish i σ)
      end
  | Some (Some (AwaitSend c b groupId message)) =>
      match r with
      | Rejected => emit c (EvError "Erro ao enviar mensagem.") (finish i σ)
      | _ => emit c (EvMessageStatus "sent") (finish i σ)
      end
  | _ => σ
  end.

(** Events of a transport client reach the handlers of its connection only
    while the connection handler registered them and the client is there. *)
Definition dispatch (c : string) (h : Conn → State → State) (σ : State) : State :=
  match conns σ !! c with
  | Some k => if listening k && alive k then h k σ else σ
  | None => σ
  end.

(** All handlers registered for one event run, in registration order. *)
Definition run_handlers (h : string → State → State) (users : list string) (σ : State) : State :=
  fold_left (λ σ u, h u σ) users σ.

(** The transport of [c] is closed: nothing comes from it any more. *)
Definition client_gone (c : string) : State → State :=
  with_conns (alter (λ k, mkConn (listening k) (instance k) (on_disconnect k)
                            (on_listGroups k) false) c).

(** The ['messages.upsert'] listeners of a socket (lines 178-181). *)
Definition messages_upsert (s : SockId) (payload : string) (σ : State) : State :=
  match wasockets σ !! s with
  | Some w => fold_left (λ σ c, emit c (EvMessage payload) σ) (on_messages_upsert w) σ
  | None => σ
  end.

(** The interval timer of [createUserStore] (lines 43-45). *)
Definition store_flush (userId : string) (σ : State) : State :=
  match userStores σ !! userId with
  | Some store => with_files (insert (storeFilePath userId) (chats store)) σ
  | None => σ
  end.

(** Lines 153 and 221 take the fields out of [data] before anything else:
    with [data] undefined the handler throws there. *)
Definition destructure_undefined (c : string) : State → State :=
  reject (TypeError_destructure c).

Definition step (σ : State) (e : Event) : State :=
  match e with
  | Connect c => new_connection c σ
  | ClientAuth c userId => dispatch c (λ _, auth c userId) σ
  | ClientSendMessage c groupId message =>
      dispatch c (λ _, sendMessage c groupId message) σ
  | ClientListGroups c =>
      dispatch c (λ k, run_handlers (listGroups c) (on_listGroups k)) σ
  | ClientDisconnect c =>
      dispatch c (λ k σ, client_gone c (run_handlers (teardown c) (on_disconnect k) σ)) σ
  | ConnectionUpdate s up => connection_update s up σ
  | MessagesUpsert s payload => messages_upsert s payload σ
  | Settle i r => resume i r σ
  | StoreFlush userId => store_flush userId σ
  | ClientAuthNoPayload c => dispatch c (λ _, destructure_undefined c) σ
  | ClientSendMessageNoPayload c => dispatch c (λ _, destructure_undefined c) σ
  end.

Definition run (σ : State) (events : list Event) : State :=
  fold_left step events σ.

(** The process starts with empty maps, on a disk that may hold credential
    folders and store snapshots of earlier runs. *)
Definition boot (d : gset string) (f : gmap string (list Chat)) : State :=
  mkState ∅ ∅ ∅ [] d f [] [] [].

Definition init : State := boot ∅ ∅.

Inductive reachable : State → Prop :=
| reachable_boot d f : reachable (boot d f)
| reachable_step σ e : reachable σ → reachable (step σ e).

(** Updates a protocol socket emits. *)
Definition closed_with (code : option Z) : Update := mkUpdate (Some conn_close) code None.
Definition opened : Update := mkUpdate (Some conn_open) None None.

(** [DisconnectReason.connectionClosed] *)
Definition connectionClosed : Z := 428.


(** The pairing-code relay of lines 85-88, as a list of notifications. *)
Definition qr_events (c : string) (up : Update) : list (string * OutEvent) :=
  match truthy (qr up) with
  | Some code => [(c, EvQr code)]
  | None => []
  end.

(** ** Ownership of sockets *)

(** The client whose connection made socket [b]. *)
Definition sock_client (σ : State) (b : SockId) : option string :=
  ws_client <$> wasockets σ !! b.

(** What every reachable state satisfies: the [baileysInstance] variable of
    a connection, and the instance stored in an entry, name a socket made
    by that connection, respectively by the client the entry records. *)
Definition owns (σ : State) : Prop :=
  (∀ c k b, conns σ !! c = Some k → instance k = Some b → sock_client σ b = Some c) ∧
  (∀ u e, activeSockets σ !! u = Some e →
          sock_client σ (baileysInstance e) = Some (clientId e)).

(** [σ'] has no entry and no instance variable that [σ] had not, and every
    socket of [σ] is still there for the same client. *)
Definition tame (σ σ' : State) : Prop :=
  (∀ u e, activeSockets σ' !! u = Some e → activeSockets σ !! u = Some e) ∧
  (∀ c k b, conns σ' !! c = Some k → instance k = Some b →
            ∃ k0, conns σ !! c = Some k0 ∧ instance k0 = Some b) ∧
  (∀ b c, sock_client σ b = Some c → sock_client σ' b = Some c).

(** What a teardown run by another client leaves alone in [σ], compared
    with the state [σ0] it started from: the entry [e] of [u] and the
    socket it names. *)
Definition spared (u : string) (e : Entry) (σ0 σ : State) : Prop :=
  activeSockets σ !! u = Some e ∧
  wasockets σ !! baileysInstance e = wasockets σ0 !! baileysInstance e ∧
  conns σ = conns σ0.

(** ** Stores outlive everything *)

(** A group sync that is waiting for its listing has its store. *)
Definition stores_ready (σ : State) : Prop :=
  ∀ i s u, pending σ !! i = Some (Some (AwaitGroups s u)) → is_Some (userStores σ !! u).

(** [σ'] still has every store of [σ], and a group sync waiting in [σ']
    was waiting in [σ] or has its store. *)
Definition keeps (σ σ' : State) : Prop :=
  (∀ u, is_Some (userStores σ !! u) → is_Some (userStores σ' !! u)) ∧
  (∀ i s u, pending σ' !! i = Some (Some (AwaitGroups s u)) →
            pending σ !! i = Some (Some (AwaitGroups s u)) ∨
            is_Some (userStores σ' !! u)).

Definition is_group_sync (t : Task) : bool :=
  match t with
  | AwaitGroups _ _ => true
  | _ => false
  end.

(** ** Counting notifications *)

Definition is_groups_for (c : string) (x : string * OutEvent) : bool :=
  match x with
  | (c', EvGroups _) => String.eqb c c'
  | _ => false
  end.

(** How many ['groups'] events client [c] was sent. *)
Definition groups_emitted (c : string) (σ : State) : nat :=
  length (List.filter (is_groups_for c) (emitted σ)).

(** ** An ['auth'] that goes through without interleaving *)

(** Client [c] sends ['auth'] for [u]; the credentials load and the socket
    is made before any other event is processed. *)
Definition auth_established (c u : string) (σ : State) : State :=
  run σ [ClientAuth c (Some u);
         Settle (length (pending σ)) Resolved;
         Settle (length (pending σ)) Resolved].

Definition auths_established (c : string) (users : list string) (σ : State) : State :=
  fold_left (λ σ u, auth_established c u σ) users σ.

(** ** Scenarios *)

Module Scenario.

(** Two groups, as a protocol client would list them. *)
Definition g1 : GroupMetadata := mkGroup "1@g.us" "one" ["a@s.whatsapp.net"] 10.
Definition g2 : GroupMetadata := mkGroup "2@g.us" "two" ["a@s.whatsapp.net"; "b@s.whatsapp.net"] 20.

(** Client A authenticates as [u] and the connection is established. *)
Definition authenticated : list Event :=
  [Connect "A"; ClientAuth "A" (Some "u"); Settle 0 Resolved; Settle 0 Resolved].

(** Clients A and B both send ['auth'] for [u] before either connection
    is established; A's is established first. *)
Definition concurrent_auth : list Event :=
  [Connect "A"; Connect "B";
   ClientAuth "A" (Some "u"); ClientAuth "B" (Some "u");
   Settle 0 Resolved; Settle 0 Resolved;
   Settle 1 Resolved; Settle 1 Resolved].

(** The socket of [authenticated] closes for a reason other than logout
    and the reconnection is established. *)
Definition reconnected : list Event :=
  authenticated ++
  [ConnectionUpdate 0 (closed_with (Some connectionClosed));
   Settle 1 Resolved; Settle 1 Resolved].

(** The credential store fails while A authenticates. *)
Definition auth_fails : list Event :=
  [Connect "A"; ClientAuth "A" (Some "u"); Settle 0 Rejected].

(** A's ['auth'] is suspended after its credentials were loaded; B
    authenticates as the same user and is logged out; then A's connection
    is established. *)
Definition logout_then_late_auth : list Event :=
  [Connect "A"; Connect "B";
   ClientAuth "A" (Some "u"); Settle 0 Resolved;
   ClientAuth "B" (Some "u"); Settle 1 Resolved; Settle 1 Resolved;
   ConnectionUpdate 0 (closed_with (Some loggedOut));
   Settle 0 Resolved].

(** After [reconnected], client A leaves. *)
Definition abandoned : list Event :=
  reconnected ++ [ClientDisconnect "A"].

(** After [concurrent_auth], where B ends up owning [u], client A also
    authenticates as [v]. *)
Definition two_owners : list Event :=
  concurrent_auth ++
  [ClientAuth "A" (Some "v"); Settle 2 Resolved; Settle 2 Resolved].

(** A authenticates as [u] and leaves; B authenticates as [u]; then the
    close of A's socket arrives, and the reconnection it starts is
    established. *)
Definition late_close : list Event :=
  [Connect "A"; Connect "B";
   ClientAuth "A" (Some "u"); Settle 0 Resolved; Settle 0 Resolved;
   ClientDisconnect "A";
   ClientAuth "B" (Some "u"); Settle 1 Resolved; Settle 1 Resolved;
   ConnectionUpdate 0 (closed_with (Some connectionClosed));
   Settle 2 Resolved; Settle 2 Resolved].

(** The connection of [authenticated] opens. *)
Definition connection_opened : list Event :=
  authenticated ++ [ConnectionUpdate 0 opened].

End Scenario.


(** ** Further notions *)

(** No two chats of a store share an id. *)
Definition unique_ids (st : Store) : Prop := NoDup (map id (chats st)).




(** The notification that answers a settled [sendMessage] (lines 231, 234). *)
Definition send_report (r : Outcome) : OutEvent :=
  match r with
  | Rejected => EvError "Erro ao enviar mensagem."
  | _ => EvMessageStatus "sent"
  end.

(** A socket of [σ] is still there in [σ'], for the same user and client,
    with the listeners it had, and closed if it was closed. *)
Definition stable (σ σ' : State) : Prop :=
  ∀ b w, wasockets σ !! b = Some w →
    ∃ w', wasockets σ' !! b = Some w' ∧
          ws_user w' = ws_user w ∧ ws_client w' = ws_client w ∧
          (on_connection_update w = true → on_connection_update w' = true) ∧
          (on_creds_update w = true → on_creds_update w' = true) ∧
          on_messages_upsert w `prefix_of` on_messages_upsert w' ∧
          (ws_closed w = true → ws_closed w' = true).

(** A connection of [σ] is still known in [σ']: with the same handlers
    and more, with a protocol instance if it had one, and gone if it was
    gone. *)
Definition conns_grow (σ σ' : State) : Prop :=
  ∀ c k, conns σ !! c = Some k →
    ∃ k', conns σ' !! c = Some k' ∧
          listening k' = listening k ∧
          (is_Some (instance k) → is_Some (instance k')) ∧
          (alive k = false → alive k' = false) ∧
          on_disconnect k `prefix_of` on_disconnect k' ∧
          on_listGroups k `prefix_of` on_listGroups k'.

(** A store of [σ] is still there in [σ'], with the chats it had, in
    place. *)
Definition stores_grow (σ σ' : State) : Prop :=
  ∀ u st, userStores σ !! u = Some st →
    ∃ st', userStores σ' !! u = Some st' ∧ chats st `prefix_of` chats st'.

Definition evolves (σ σ' : State) : Prop :=
  stable σ σ' ∧ conns_grow σ σ' ∧ stores_grow σ σ'.

(** Every ['messages.upsert'] listener of a socket relays to the client the
    socket was made for. *)
Definition relays_home (σ : State) : Prop :=
  ∀ b w, wasockets σ !! b = Some w →
    Forall (λ c, c = ws_client w) (on_messages_upsert w).

(** The instance an entry stores is a socket opened for that user. *)
Definition entries_match (σ : State) : Prop :=
  ∀ u e, activeSockets σ !! u = Some e →
    ∃ w, wasockets σ !! baileysInstance e = Some w ∧
         ws_user w = u ∧ ws_client w = clientId e.

(** What a step may do to the entry of [u]: nothing, remove it, or, when
    slot [i] held the last await of an ['auth'] of [c] for [u] and it
    resolved, write the entry of lines 170-171. *)
Definition entry_written (σ : State) (e : Event) (u : string) (ent : Entry) : Prop :=
  ∃ i r c, e = Settle i r ∧ r ≠ Rejected ∧
           pending σ !! i = Some (Some (AwaitVersion FromAuth c u)) ∧
           ent = mkEntry c (length (wasockets σ)).

Module Runs.

(** Client A authenticates as the user whose id is the transport id of a
    later client B. *)
Definition namesake : list Event :=
  [Connect "A"; ClientAuth "A" (Some "B"); Settle 0 Resolved; Settle 0 Resolved].

(** Two clients connect; A authenticates as [u]. *)
Definition two_clients : list Event :=
  [Connect "A"; Connect "B";
   ClientAuth "A" (Some "u"); Settle 0 Resolved; Settle 0 Resolved].

(** A authenticates as [u] and leaves. *)
Definition left : list Event :=
  Scenario.authenticated ++ [ClientDisconnect "A"].

(** The connection of [Scenario.authenticated] opens and the two groups are
    synced. *)
Definition synced : list Event :=
  Scenario.connection_opened ++ [Settle 1 (ResolvedGroups [Scenario.g1; Scenario.g2])].

(** A snapshot file with two groups and a one-to-one chat. *)
Definition snapshot : list Chat :=
  [toChat Scenario.g1; mkChat "5511@s.whatsapp.net" "ana" [] 0 0 []; toChat Scenario.g2].

End Runs.
(** ** Concrete runs *)

(** C1, as the code runs it.  Two ['auth'] requests for the
    same user interleave at the awaits of [connectWhatsApp].  Both pass the
    [activeSockets] check of lines 161-166, so no ['already_connected'] is
    ever emitted; two protocol sockets are made; A's entry is created and
    then overwritten by B's, and A keeps its socket and its handlers. *)
Theorem concurrent_auth_both_pass :
  let σA := run init (take 6 Scenario.concurrent_auth) in
  let σ := run init Scenario.concurrent_auth in
  activeSockets σA !! "u" = Some (mkEntry "A" 0) ∧
  activeSockets σ !! "u" = Some (mkEntry "B" 1) ∧
  emitted σ = [] ∧
  length (wasockets σ) = 2 ∧
  conns σ !! "A" = Some (mkConn true (Some 0) ["u"] ["u"] true) ∧
  conns σ !! "B" = Some (mkConn true (Some 1) ["u"] ["u"] true).
Proof. vm_compute. repeat split. Qed.

(** C2, as the code runs it.  After a close with a reason other than
    logout the reconnection makes socket 1, but line 103 drops what
    [connectWhatsApp] returns: the entry of [u] and the [baileysInstance]
    variable of its client still name socket 0.  So a message that arrives
    on socket 1 is not relayed, and when the client leaves, the teardown
    closes socket 0 and leaves socket 1 open. *)
Theorem reconnect_keeps_stale_instance :
  let σ := run init Scenario.reconnected in
  activeSockets σ !! "u" = Some (mkEntry "A" 0) ∧
  (conns σ !! "A" ≫= instance) = Some 0 ∧
  wasockets σ = [mkSock "u" "A" true true ["A"] false;
                 mkSock "u" "A" true true [] false] ∧
  emitted (step σ (MessagesUpsert 1 "hello")) = emitted σ ∧
  wasockets (step σ (ClientDisconnect "A"))
  = [mkSock "u" "A" true true ["A"] true;
     mkSock "u" "A" true true [] false].
Proof. vm_compute. repeat split. Qed.

(** C3, as the code runs it.  When the connection cannot be
    established for a client without an earlier protocol instance, the
    client gets the ['error'] notification, no entry is created and nothing
    is retried, but line 178 then reads [.ev] of [undefined]: the
    [TypeError] leaves the handler, and neither the ['disconnect'] nor the
    ['listGroups'] handler is registered. *)
Theorem failed_auth_throws :
  let σ := run init Scenario.auth_fails in
  emitted σ = [("A", EvError "Erro ao conectar ao WhatsApp.")] ∧
  activeSockets σ = ∅ ∧
  wasockets σ = [] ∧
  pending σ = [None] ∧
  unhandled σ = [TypeError_undefined_ev "A"] ∧
  conns σ !! "A" = Some (mkConn true None [] [] true).
Proof. vm_compute. repeat split. Qed.

(** C6, as the code runs it.  A authenticates as [u] and leaves: the
    teardown removes the entry of [u] and closes A's socket, whose
    listeners all stay (the [removeAllListeners(undefined)] of line 194
    detaches none).  B then authenticates as [u].  When the close of A's
    socket is processed, [u] has an entry again, B's, so the guard of line
    95 lets it through: a reconnection starts in the closure of the client
    that left and, once established, is a live socket for [u] that nobody
    owns.  B's entry is as it was. *)
Theorem late_close_resurrects_session :
  let σ0 := run init (take 6 Scenario.late_close) in
  let σ1 := run init (take 9 Scenario.late_close) in
  let σ2 := step σ1 (ConnectionUpdate 0 (closed_with (Some connectionClosed))) in
  let σ3 := run init Scenario.late_close in
  activeSockets σ0 !! "u" = None ∧
  wasockets σ0 = [mkSock "u" "A" true true ["A"] true] ∧
  (alive <$> conns σ0 !! "A") = Some false ∧
  activeSockets σ1 !! "u" = Some (mkEntry "B" 1) ∧
  pending σ2 = pending σ1 ++ [Some (AwaitAuthState FromReconnect "A" "u")] ∧
  wasockets σ3 = [mkSock "u" "A" true true ["A"] true;
                  mkSock "u" "B" true true ["B"] false;
                  mkSock "u" "A" true true [] false] ∧
  activeSockets σ3 !! "u" = Some (mkEntry "B" 1).
Proof. vm_compute. repeat split. Qed.

(** C9, as the code runs it.  A client that authenticated as
    [u] asks for its groups before any store exists for [u]: the handler
    emits nothing at all, neither ['groups'] nor ['error']. *)
Theorem listGroups_without_store_is_silent :
  let σ := run init Scenario.authenticated in
  on_listGroups <$> conns σ !! "A" = Some ["u"] ∧
  getUserStore "u" σ = None ∧
  step σ (ClientListGroups "A") = σ ∧
  emitted (step σ (ClientListGroups "A")) = [].
Proof. vm_compute. repeat split. Qed.

(** C4, as the code runs it.  First run: in a state the relay reaches,
    [u] has an entry, held by the socket that closes, but no credential
    folder; the logged-out close is processed and nothing happens at all:
    the entry stays and no ['disconnected'] is sent, because lines 110-111
    sit inside the [existsSync] test of line 107.  Second run: B owns the
    entry of [u] and the logged-out close comes from the socket A made for
    [u]; the folder and the entry of B are removed and the one
    ['disconnected'] goes to A, none to the owner. *)
Theorem logout_without_folder_keeps_entry :
  let σ := run init Scenario.logout_then_late_auth in
  let σ' := step σ (ConnectionUpdate 1 (closed_with (Some loggedOut))) in
  let τ := run init Scenario.concurrent_auth in
  let τ' := step τ (ConnectionUpdate 0 (closed_with (Some loggedOut))) in
  (activeSockets σ !! "u" = Some (mkEntry "A" 1) ∧
   wasockets σ !! 1 = Some (mkSock "u" "A" true true ["A"] false) ∧
   bool_decide (authPath "u" ∈ dirs σ) = false ∧
   σ' = σ ∧
   activeSockets σ' !! "u" = Some (mkEntry "A" 1) ∧
   emitted σ' = emitted σ) ∧
  (activeSockets τ !! "u" = Some (mkEntry "B" 1) ∧
   wasockets τ !! 0 = Some (mkSock "u" "A" true true ["A"] false) ∧
   bool_decide (authPath "u" ∈ dirs τ) = true ∧
   bool_decide (authPath "u" ∈ dirs τ') = false ∧
   activeSockets τ' !! "u" = None ∧
   emitted τ' = emitted τ ++ [("A", EvStatus disconnected)] ∧
   ("B", EvStatus disconnected) ∉ emitted τ').
Proof.
  vm_compute. split.
  - repeat (split; [reflexivity|]). reflexivity.
  - repeat (split; [reflexivity|]).
    intros [=]%list_elem_of_singleton.
Qed.

(** C8, counterexample.  When the open event has been processed the client
    already has its ['connected'], while the store of [u] holds none of the
    two groups the listing is about to return; a ['listGroups'] sent at
    once is answered with no group, and the groups only enter the store
    when the listing settles. *)
Lemma connected_precedes_sync :
  let σ := run init Scenario.connection_opened in
  let σ1 := step σ (ClientListGroups "A") in
  let σ2 := step σ1 (Settle 1 (ResolvedGroups [Scenario.g1; Scenario.g2])) in
  emitted σ = [("A", EvStatus connected)] ∧
  pending σ !! 1 = Some (Some (AwaitGroups 0 "u")) ∧
  ¬ (∃ st, userStores σ !! "u" = Some st ∧ is_Some (chats_get "1@g.us" st)) ∧
  emitted σ1 = [("A", EvStatus connected); ("A", EvGroups [])] ∧
  (∃ st2, userStores σ2 !! "u" = Some st2 ∧
          chats_get "1@g.us" st2 = Some (toChat Scenario.g1) ∧
          chats_get "2@g.us" st2 = Some (toChat Scenario.g2)) ∧
  emitted σ2 = emitted σ1.
Proof.
  vm_compute. split; [done|]. split; [done|]. split; [|split; [done|split; [|done]]].
  - intros (st & [= <-] & [ch Hch]). discriminate Hch.
  - eexists. split; [reflexivity|]. split; reflexivity.
Qed.

(** C10, counterexample.  One ['auth'] passed both rejections and its
    connection was established, so one ['listGroups'] handler is
    registered; yet a ['listGroups'] command does not emit ['groups'] once,
    it emits nothing, because no store exists yet.  And an ['auth'] that
    passed both rejections but whose connection failed registered no
    handler at all. *)
Lemma one_auth_zero_groups :
  let σ := run init Scenario.authenticated in
  let σf := run init Scenario.auth_fails in
  (on_listGroups <$> conns σ !! "A") = Some ["u"] ∧
  groups_emitted "A" (step σ (ClientListGroups "A")) ≠ groups_emitted "A" σ + 1 ∧
  emitted (step σ (ClientListGroups "A")) = [] ∧
  (on_listGroups <$> conns σf !! "A") = Some [] ∧
  (on_disconnect <$> conns σf !! "A") = Some [].
Proof. vm_compute. repeat split. discriminate. Qed.

(** ** What the guards do when nothing interleaves *)

(** The check of lines 161-166 does reject an ['auth'] for a user that has
    an entry when the request is processed. *)
Lemma auth_rejects_registered_user σ c k u e :
  conns σ !! c = Some k → listening k = true → alive k = true →
  u ≠ "" → activeSockets σ !! u = Some e →
  step σ (ClientAuth c (Some u)) = emit c (EvStatus already_connected) σ.
Proof.
  intros Hk Hl Ha Hu He. simpl. unfold dispatch, auth.
  rewrite Hk, Hl, Ha. simpl. destruct u; [done|]. simpl. by rewrite He.
Qed.


(** The [catch] of lines 213-215 has no [client.emit]. *)
Lemma listGroups_absent_store c u σ :
  getUserStore u σ = None → listGroups c u σ = σ.
Proof. unfold listGroups. by intros ->. Qed.

(** Lines 172-178 for a client that has no protocol instance yet: whichever
    await of [connectWhatsApp] rejects, the client is told, the registry
    is untouched, and the [TypeError] of line 178 leaves the handler. *)
Lemma failed_first_auth_escapes σ i c u k :
  pending σ !! i = Some (Some (AwaitAuthState FromAuth c u)) ∨
  pending σ !! i = Some (Some (AwaitVersion FromAuth c u)) →
  conns σ !! c = Some k → instance k = None →
  let σ' := step σ (Settle i Rejected) in
  emitted σ' = emitted σ ++ [(c, EvError "Erro ao conectar ao WhatsApp.")] ∧
  unhandled σ' = unhandled σ ++ [TypeError_undefined_ev c] ∧
  activeSockets σ' = activeSockets σ ∧
  conns σ' = conns σ ∧
  wasockets σ' = wasockets σ.
Proof.
  intros Hp Hk Hi σ'. subst σ'. simpl. unfold resume.
  destruct Hp as [-> | ->]; simpl; unfold after_try; simpl; by rewrite Hk, Hi.
Qed.

(** ** Sockets stay with the connection that made them *)

Create HintDb relay.

Lemma tame_refl σ : tame σ σ.
Proof. repeat split; eauto. Qed.

Lemma tame_trans σ1 σ2 σ3 : tame σ1 σ2 → tame σ2 σ3 → tame σ1 σ3.
Proof.
  intros (A1 & K1 & W1) (A2 & K2 & W2). repeat split; eauto.
  intros c k b Hk Hb. destruct (K2 c k b Hk Hb) as (k0 & Hk0 & Hb0). eauto.
Qed.

Lemma tame_frame σ σ' :
  activeSockets σ' = activeSockets σ → conns σ' = conns σ →
  wasockets σ' = wasockets σ → tame σ σ'.
Proof.
  intros HA HK HW. unfold tame, sock_client. rewrite HA, HK, HW.
  repeat split; eauto.
Qed.

Lemma owns_tame σ σ' : tame σ σ' → owns σ → owns σ'.
Proof.
  intros (A & K & W) (I1 & I2). split.
  - intros c k b Hk Hb. destruct (K c k b Hk Hb) as (k0 & Hk0 & Hb0). eauto.
  - intros u e He. eauto.
Qed.

Lemma sock_client_alter (f : WASocket → WASocket) b (W : list WASocket) b' :
  (∀ w, ws_client (f w) = ws_client w) →
  ws_client <$> alter f b W !! b' = ws_client <$> W !! b'.
Proof.
  intros Hf. rewrite list_lookup_alter. case_decide as Hb; [subst|done].
  destruct (W !! b'); simpl; [by rewrite Hf | done].
Qed.

Lemma sock_client_app (W : list WASocket) w b c :
  ws_client <$> W !! b = Some c → ws_client <$> (W ++ [w]) !! b = Some c.
Proof.
  intros H. rewrite lookup_app_l; [done|].
  apply lookup_lt_is_Some. destruct (W !! b); [eauto | done].
Qed.

Lemma tame_emit c e σ : tame σ (emit c e σ).
Proof. by apply tame_frame. Qed.

Lemma tame_reject r σ : tame σ (reject r σ).
Proof. by apply tame_frame. Qed.

Lemma tame_suspend t σ : tame σ (suspend t σ).
Proof. by apply tame_frame. Qed.

Lemma tame_finish i σ : tame σ (finish i σ).
Proof. by apply tame_frame. Qed.

Lemma tame_delete u σ : tame σ (with_activeSockets (delete u) σ).
Proof.
  repeat split; simpl; eauto.
  intros u' e H. apply lookup_delete_Some in H. tauto.
Qed.

Lemma tame_release b σ : tame σ (release b σ).
Proof.
  repeat split; simpl; eauto.
  intros b' c. unfold sock_client. simpl. by rewrite sock_client_alter.
Qed.

Lemma tame_makeWASocket c u σ : tame σ (makeWASocket c u σ).
Proof.
  repeat split; simpl; eauto.
  intros b' c'. unfold sock_client. simpl. apply sock_client_app.
Qed.

Lemma tame_client_gone c σ : tame σ (client_gone c σ).
Proof.
  repeat split; simpl; eauto.
  intros c' k b Hk Hb. rewrite lookup_alter in Hk. case_decide; [subst|eauto].
  destruct (conns σ !! c') as [k0|] eqn:E; simplify_eq/=. eauto.
Qed.

Lemma tame_new_connection c σ : tame σ (new_connection c σ).
Proof.
  unfold new_connection. destruct (conns σ !! c) eqn:E; [apply tame_refl|].
  repeat split; simpl; eauto.
  intros c' k b Hk Hb. rewrite lookup_insert in Hk. case_decide; simplify_eq/=. eauto.
Qed.

Lemma tame_after_try c u σ : tame σ (after_try c u σ).
Proof.
  unfold after_try. destruct (conns σ !! c) as [k|] eqn:E; [|apply tame_refl].
  destruct (instance k) as [b|] eqn:Eb; [|apply tame_reject].
  repeat split; simpl; eauto.
  - intros c' k' b' Hk Hb. rewrite lookup_insert in Hk.
    case_decide; simplify_eq/=; eauto.
  - intros b' c'. unfold sock_client. simpl. by rewrite sock_client_alter.
Qed.

#[local] Hint Resolve tame_refl tame_emit tame_reject tame_suspend tame_finish
  tame_delete tame_release tame_makeWASocket tame_client_gone
  tame_new_connection tame_after_try : relay.

Lemma tame_teardown c u σ : tame σ (teardown c u σ).
Proof.
  unfold teardown. destruct (activeSockets σ !! u); [|auto with relay].
  destruct (String.eqb _ c); [|auto with relay].
  destruct (conns σ !! c ≫= instance); [|auto with relay].
  eapply tame_trans; [apply tame_delete | apply tame_release].
Qed.

Lemma tame_listGroups c u σ : tame σ (listGroups c u σ).
Proof. unfold listGroups. destruct (getUserStore u σ); auto with relay. Qed.

Lemma tame_run_handlers h users σ :
  (∀ u σ, tame σ (h u σ)) → tame σ (run_handlers h users σ).
Proof.
  intros Hh. revert σ. induction users as [|u users IH]; intros σ; simpl.
  - apply tame_refl.
  - eapply tame_trans; [apply Hh | apply IH].
Qed.

Lemma tame_relay_qr c up σ : tame σ (relay_qr c up σ).
Proof. unfold relay_qr. destruct (truthy (qr up)); auto with relay. Qed.

Lemma tame_on_close c u up σ : tame σ (on_close c u up σ).
Proof.
  unfold on_close, connectWhatsApp. destruct (activeSockets σ !! u); [|auto with relay].
  destruct (shouldReconnect up); [auto with relay|].
  case_bool_decide; [|auto with relay].
  eapply tame_trans; [|apply tame_emit].
  eapply tame_trans; [|apply tame_delete]. by apply tame_frame.
Qed.

Lemma tame_createUserStore u σ : tame σ (createUserStore u σ).
Proof.
  unfold createUserStore. destruct (userStores σ !! u); [apply tame_refl|].
  by apply tame_frame.
Qed.

Lemma tame_on_open s c u σ : tame σ (on_open s c u σ).
Proof.
  unfold on_open. eapply tame_trans; [|apply tame_suspend].
  eapply tame_trans; [apply tame_emit | apply tame_createUserStore].
Qed.

Lemma tame_connection_update s up σ : tame σ (connection_update s up σ).
Proof.
  unfold connection_update. destruct (wasockets σ !! s) as [w|]; [|apply tame_refl].
  destruct (on_connection_update w); [|apply tame_refl].
  eapply tame_trans; [apply tame_relay_qr|].
  destruct (connection up) as [[]|];
    auto using tame_on_open, tame_on_close with relay.
Qed.

Lemma tame_messages_upsert s payload σ : tame σ (messages_upsert s payload σ).
Proof.
  unfold messages_upsert. destruct (wasockets σ !! s) as [w|]; [|apply tame_refl].
  generalize (on_messages_upsert w). intros l. revert σ.
  induction l as [|c l IH]; intros σ; simpl; [apply tame_refl|].
  eapply tame_trans; [apply tame_emit | apply IH].
Qed.

Lemma tame_dispatch c h σ :
  (∀ k σ, tame σ (h k σ)) → tame σ (dispatch c h σ).
Proof.
  intros Hh. unfold dispatch. destruct (conns σ !! c) as [k|]; [|apply tame_refl].
  destruct (listening k && alive k); [apply Hh | apply tame_refl].
Qed.

Lemma tame_connect_threw who c u σ : tame σ (connect_threw who c u σ).
Proof.
  destruct who; simpl; [|apply tame_reject].
  eapply tame_trans; [apply tame_emit | apply tame_after_try].
Qed.

(** The one place where an entry and an instance variable are written:
    lines 170-171, with the socket [connectWhatsApp] has just made. *)
Lemma owns_auth_connected c u σ :
  owns σ →
  owns (auth_connected c u (length (wasockets σ)) (makeWASocket c u σ)).
Proof.
  intros (I1 & I2).
  assert (Hnew : sock_client (makeWASocket c u σ) (length (wasockets σ)) = Some c).
  { unfold sock_client. simpl. by rewrite lookup_app_r, Nat.sub_diag. }
  assert (Hold : ∀ b c', sock_client σ b = Some c' →
                         sock_client (makeWASocket c u σ) b = Some c').
  { intros b c'. unfold sock_client. simpl. apply sock_client_app. }
  split.
  - intros c' k b Hk Hb. simpl in Hk. rewrite lookup_alter in Hk.
    change (sock_client (makeWASocket c u σ) b = Some c').
    case_decide; [subst c'|eauto].
    destruct (conns σ !! c) as [k0|] eqn:E; simplify_eq/=. done.
  - intros u' e He. simpl in He. rewrite lookup_insert in He.
    change (sock_client (makeWASocket c u σ) (baileysInstance e) = Some (clientId e)).
    case_decide; simplify_eq/=; eauto.
Qed.

Lemma owns_resume i r σ : owns σ → owns (resume i r σ).
Proof.
  intros Hσ. unfold resume.
  destruct (pending σ !! i) as [[[who c u|who c u|s u|c b g m]|]|]; [| | | |done|done].
  - destruct r; try (eapply owns_tame; [|exact Hσ]; by apply tame_frame).
    eapply owns_tame; [|exact Hσ].
    eapply tame_trans; [apply tame_finish | apply tame_connect_threw].
  - assert (Hret : owns (connect_returned who c u (length (wasockets σ))
                           (makeWASocket c u (finish i σ)))).
    { destruct who; simpl.
      - eapply owns_tame; [apply tame_after_try|].
        apply (owns_auth_connected c u (finish i σ)).
        eapply owns_tame; [apply tame_finish | done].
      - eapply owns_tame; [|exact Hσ].
        eapply tame_trans; [apply tame_finish | apply tame_makeWASocket]. }
    destruct r; try exact Hret.
    eapply owns_tame; [|exact Hσ].
    eapply tame_trans; [apply tame_finish | apply tame_connect_threw].
  - destruct r; (eapply owns_tame; [|exact Hσ]; by apply tame_frame).
  - destruct r; (eapply owns_tame; [|exact Hσ]; by apply tame_frame).
Qed.

Lemma owns_step σ e : owns σ → owns (step σ e).
Proof.
  intros Hσ. destruct e; simpl.
  - eapply owns_tame; [apply tame_new_connection | done].
  - eapply owns_tame; [|done]. apply tame_dispatch. intros _ σ0.
    unfold auth, connectWhatsApp. destruct (truthy userId); [|auto with relay].
    destruct (activeSockets σ0 !! _); auto with relay.
  - eapply owns_tame; [|done]. apply tame_dispatch. intros _ σ0.
    unfold sendMessage. destruct (conns σ0 !! c ≫= instance); auto with relay.
  - eapply owns_tame; [|done]. apply tame_dispatch. intros k σ0.
    apply tame_run_handlers, tame_listGroups.
  - eapply owns_tame; [|done]. apply tame_dispatch. intros k σ0.
    eapply tame_trans; [|apply tame_client_gone].
    apply tame_run_handlers, tame_teardown.
  - eapply owns_tame; [apply tame_connection_update | done].
  - eapply owns_tame; [apply tame_messages_upsert | done].
  - by apply owns_resume.
  - eapply owns_tame; [|done]. unfold store_flush.
    destruct (userStores σ !! userId); [by apply tame_frame | apply tame_refl].
  - eapply owns_tame; [|done]. apply tame_dispatch. intros _ σ0. apply tame_reject.
  - eapply owns_tame; [|done]. apply tame_dispatch. intros _ σ0. apply tame_reject.
Qed.

Lemma owns_boot d f : owns (boot d f).
Proof. split; intros ? ? *; simpl; by rewrite lookup_empty. Qed.

Lemma reachable_owns σ : reachable σ → owns σ.
Proof. induction 1; [apply owns_boot | by apply owns_step]. Qed.

Lemma reachable_run σ events : reachable σ → reachable (run σ events).
Proof.
  revert σ. induction events as [|e events IH]; intros σ Hσ; simpl; [done|].
  apply IH. by constructor.
Qed.
(** ** The close branch *)

Lemma relay_qr_emitted c up σ :
  emitted (relay_qr c up σ) = emitted σ ++ qr_events c up.
Proof.
  unfold relay_qr, qr_events. destruct (truthy (qr up)); simpl; [done|].
  by rewrite app_nil_r.
Qed.

Lemma relay_qr_silent c up σ : truthy (qr up) = None → relay_qr c up σ = σ.
Proof. unfold relay_qr. by intros ->. Qed.

(** The relay of a pairing code touches nothing but the notifications. *)
Ltac qr_frame := unfold relay_qr; by destruct (truthy (qr _)).

Lemma shouldReconnect_true up :
  statusCode up ≠ Some loggedOut → shouldReconnect up = true.
Proof.
  unfold shouldReconnect. destruct (statusCode up) as [code|]; [|done].
  intros Hne. apply negb_true_iff, Z.eqb_neq. congruence.
Qed.

Lemma shouldReconnect_false up :
  statusCode up = Some loggedOut → shouldReconnect up = false.
Proof. unfold shouldReconnect. by intros ->. Qed.

(** A reconnection never writes the registry, however it settles: the
    socket [connectWhatsApp] returns to the close branch is dropped. *)
Lemma reconnect_settles_outside_registry σ i c u r :
  pending σ !! i = Some (Some (AwaitAuthState FromReconnect c u)) ∨
  pending σ !! i = Some (Some (AwaitVersion FromReconnect c u)) →
  activeSockets (step σ (Settle i r)) = activeSockets σ.
Proof.
  intros [H|H]; simpl; unfold resume; rewrite H; by destruct r.
Qed.

Lemma reconnect_leaves_registry σ c u i r1 r2 :
  pending σ !! i = Some (Some (AwaitAuthState FromReconnect c u)) →
  activeSockets (run σ [Settle i r1; Settle i r2]) = activeSockets σ.
Proof.
  intros H. simpl.
  rewrite <- (reconnect_settles_outside_registry σ i c u r1) by eauto.
  assert (i < length (pending σ)) as Hlt by (by eapply lookup_lt_Some).
  assert (pending (resume i r1 σ) !! i = Some None ∨
          pending (resume i r1 σ) !! i = Some (Some (AwaitVersion FromReconnect c u)))
    as [Hn|Hv].
  { unfold resume. rewrite H. destruct r1; simpl;
      rewrite list_lookup_insert_eq by done; auto. }
  - unfold resume at 1. by rewrite Hn.
  - simpl. apply (reconnect_settles_outside_registry (resume i r1 σ) i c u r2). eauto.
Qed.

Section CloseBranch.
Variables (σ : State) (s : SockId) (w : WASocket) (up : Update).
Hypothesis Hsock : wasockets σ !! s = Some w.
Hypothesis Hclose : connection up = Some conn_close.

Lemma close_step :
  on_connection_update w = true →
  step σ (ConnectionUpdate s up)
  = on_close (ws_client w) (ws_user w) up (relay_qr (ws_client w) up σ).
Proof. intros Hon. simpl. unfold connection_update. by rewrite Hsock, Hon, Hclose. Qed.

(** C5.  While [u] has an entry, a close with a reason other than logout
    starts exactly one call of [connectWhatsApp] for [u], on the same
    credential folder, and the registry is left as it was, also when that
    call later settles, whichever way. *)
Theorem close_reconnects_once :
  on_connection_update w = true →
  is_Some (activeSockets σ !! ws_user w) →
  statusCode up ≠ Some loggedOut →
  let σ' := step σ (ConnectionUpdate s up) in
  let n := length (pending σ) in
  pending σ' = pending σ ++ [Some (AwaitAuthState FromReconnect (ws_client w) (ws_user w))] ∧
  activeSockets σ' = activeSockets σ ∧
  dirs σ' = dirs σ ∧
  wasockets σ' = wasockets σ ∧
  ∀ r1 r2, activeSockets (run σ' [Settle n r1; Settle n r2]) = activeSockets σ.
Proof.
  intros Hon [e He] Hcode σ' n.
  assert (pending σ' = pending σ ++ [Some (AwaitAuthState FromReconnect (ws_client w) (ws_user w))]
          ∧ activeSockets σ' = activeSockets σ ∧ dirs σ' = dirs σ
          ∧ wasockets σ' = wasockets σ) as (Hp & HA & Hd & HW).
  { subst σ'. rewrite close_step by done. unfold on_close.
    replace (activeSockets (relay_qr (ws_client w) up σ)) with (activeSockets σ)
      by qr_frame.
    rewrite He, shouldReconnect_true by done. qr_frame. }
  repeat (split; [done|]). intros r1 r2. rewrite <- HA.
  apply (reconnect_leaves_registry σ' (ws_client w) (ws_user w)).
  rewrite Hp. subst n. by rewrite lookup_app_r, Nat.sub_diag.
Qed.

(** The guard of lines 95-98.  While [u] has no entry, a close event of
    one of its sockets starts no connection attempt and changes nothing:
    registry, credential folders, sockets, stores and pending work stay as
    they were, and the only notification is the relay of a pairing code
    the update itself carries; an update without one leaves the whole
    state untouched. *)
Lemma close_without_entry_is_inert :
  activeSockets σ !! ws_user w = None →
  let σ' := step σ (ConnectionUpdate s up) in
  pending σ' = pending σ ∧
  activeSockets σ' = activeSockets σ ∧
  dirs σ' = dirs σ ∧
  wasockets σ' = wasockets σ ∧
  userStores σ' = userStores σ ∧
  conns σ' = conns σ ∧
  unhandled σ' = unhandled σ ∧
  emitted σ' = emitted σ ++ (if on_connection_update w then qr_events (ws_client w) up else []) ∧
  (truthy (qr up) = None → σ' = σ).
Proof.
  intros Hnone σ'. subst σ'. destruct (on_connection_update w) eqn:Hon.
  - rewrite close_step by done. unfold on_close.
    replace (activeSockets (relay_qr (ws_client w) up σ)) with (activeSockets σ)
      by qr_frame.
    rewrite Hnone, relay_qr_emitted.
    repeat split; try qr_frame.
  - simpl. unfold connection_update. rewrite Hsock, Hon, app_nil_r. done.
Qed.

(** X19.  While [u] has an entry and the credential folder of [u]
    exists, a logged-out close of a socket made for [u] removes the
    folder, removes the entry of [u], sends one ['disconnected'], after the
    pairing code if the update carries one, to the client whose connection
    made that socket, and starts no connection attempt.  In the states the
    relay reaches that client is the owner recorded in the entry whenever
    the entry holds that socket. *)
Theorem logout_purges_if_folder_exists :
  on_connection_update w = true →
  is_Some (activeSockets σ !! ws_user w) →
  statusCode up = Some loggedOut →
  authPath (ws_user w) ∈ dirs σ →
  let σ' := step σ (ConnectionUpdate s up) in
  (authPath (ws_user w) ∉ dirs σ') ∧
  activeSockets σ' = delete (ws_user w) (activeSockets σ) ∧
  emitted σ' = emitted σ ++ qr_events (ws_client w) up
                 ++ [(ws_client w, EvStatus disconnected)] ∧
  pending σ' = pending σ ∧
  (reachable σ → ∀ e, activeSockets σ !! ws_user w = Some e →
     baileysInstance e = s → clientId e = ws_client w).
Proof.
  intros Hon [e He] Hcode Hdir σ'.
  assert (reachable σ → ∀ e, activeSockets σ !! ws_user w = Some e →
            baileysInstance e = s → clientId e = ws_client w) as Hown.
  { intros [_ I2]%reachable_owns e' He' <-. specialize (I2 _ _ He').
    unfold sock_client in I2. rewrite Hsock in I2. by simplify_eq/=. }
  subst σ'. rewrite close_step by done. unfold on_close.
  replace (activeSockets (relay_qr (ws_client w) up σ)) with (activeSockets σ)
    by qr_frame.
  replace (dirs (relay_qr (ws_client w) up σ)) with (dirs σ) by qr_frame.
  rewrite He, shouldReconnect_false by done.
  rewrite bool_decide_eq_true_2 by done. simpl.
  rewrite relay_qr_emitted, <- app_assoc.
  split.
  { intros [_ Hn]%elem_of_difference. apply Hn. by apply elem_of_singleton. }
  split; [qr_frame|]. split; [done|]. split; [qr_frame|].
  by rewrite <- He.
Qed.
End CloseBranch.

(** The theorems of the close branch on the runs of [Scenario]. *)
Lemma close_reconnects_once_witness :
  let σ := run init Scenario.authenticated in
  let σ' := step σ (ConnectionUpdate 0 (closed_with (Some connectionClosed))) in
  pending σ' = pending σ ++ [Some (AwaitAuthState FromReconnect "A" "u")] ∧
  activeSockets σ' = activeSockets σ ∧
  activeSockets (run σ' [Settle 1 Resolved; Settle 1 Resolved]) = activeSockets σ.
Proof.
  pose proof (close_reconnects_once (run init Scenario.authenticated) 0
                (mkSock "u" "A" true true ["A"] false)
                (closed_with (Some connectionClosed))) as H.
  assert (H1 : wasockets (run init Scenario.authenticated) !! 0
               = Some (mkSock "u" "A" true true ["A"] false)) by (vm_compute; reflexivity).
  assert (H2 : is_Some (activeSockets (run init Scenario.authenticated) !! "u"))
    by (exists (mkEntry "A" 0); vm_compute; reflexivity).
  assert (H3 : statusCode (closed_with (Some connectionClosed)) ≠ Some loggedOut)
    by (vm_compute; discriminate).
  destruct (H H1 eq_refl eq_refl H2 H3) as (Hp & HA & _ & _ & Hset).
  split; [exact Hp|]. split; [exact HA|]. exact (Hset Resolved Resolved).
Defined.

Lemma close_without_entry_is_inert_witness :
  let σ := run init Scenario.abandoned in
  let σ' := step σ (ConnectionUpdate 1 (closed_with (Some connectionClosed))) in
  wasockets σ !! 1 = Some (mkSock "u" "A" true true [] false) ∧
  activeSockets σ !! "u" = None ∧
  pending σ' = pending σ ∧
  σ' = σ.
Proof.
  pose proof (close_without_entry_is_inert (run init Scenario.abandoned) 1
                (mkSock "u" "A" true true [] false)
                (closed_with (Some connectionClosed))) as H.
  assert (H1 : wasockets (run init Scenario.abandoned) !! 1
               = Some (mkSock "u" "A" true true [] false)) by (vm_compute; reflexivity).
  assert (H2 : activeSockets (run init Scenario.abandoned) !! "u" = None)
    by (vm_compute; reflexivity).
  specialize (H H1 eq_refl H2).
  destruct H as (Hp & _ & _ & _ & _ & _ & _ & _ & Hsame).
  split; [exact H1|]. split; [exact H2|]. split; [exact Hp|]. exact (Hsame eq_refl).
Defined.

Lemma logout_purges_if_folder_exists_witness :
  let σ := run init Scenario.authenticated in
  let σ' := step σ (ConnectionUpdate 0 (closed_with (Some loggedOut))) in
  authPath "u" ∈ dirs σ ∧
  (authPath "u" ∉ dirs σ') ∧
  activeSockets σ' = delete "u" (activeSockets σ) ∧
  emitted σ' = emitted σ ++ [("A", EvStatus disconnected)] ∧
  pending σ' = pending σ.
Proof.
  assert (Hd : authPath "u" ∈ dirs (run init Scenario.authenticated))
    by (vm_compute; reflexivity).
  split; [exact Hd|].
  pose proof (logout_purges_if_folder_exists (run init Scenario.authenticated) 0
                (mkSock "u" "A" true true ["A"] false)
                (closed_with (Some loggedOut))) as H.
  assert (H1 : wasockets (run init Scenario.authenticated) !! 0
               = Some (mkSock "u" "A" true true ["A"] false)) by (vm_compute; reflexivity).
  assert (H2 : is_Some (activeSockets (run init Scenario.authenticated) !! "u"))
    by (exists (mkEntry "A" 0); vm_compute; reflexivity).
  destruct (H H1 eq_refl eq_refl H2 eq_refl Hd) as (Hgone & HA & He & Hp & _).
  split; [exact Hgone|]. split; [exact HA|]. split; [exact He | exact Hp].
Defined.

(** ** The ['disconnect'] handlers *)

Section StaleTeardown.
Variables (c u : string) (e : Entry).
Hypothesis Hother : clientId e ≠ c.

Lemma teardown_spares σ0 σ u' :
  (∀ k b, conns σ0 !! c = Some k → instance k = Some b → b ≠ baileysInstance e) →
  spared u e σ0 σ → spared u e σ0 (teardown c u' σ).
Proof.
  intros Hinst (He & Hw & Hk). unfold teardown.
  destruct (activeSockets σ !! u') as [e'|] eqn:E'; [|done].
  destruct (String.eqb (clientId e') c) eqn:Eq; [|done].
  apply String.eqb_eq in Eq.
  assert (u' ≠ u) as Hne by (intros ->; congruence).
  assert (activeSockets (with_activeSockets (delete u') σ) !! u = Some e) as He'.
  { simpl. by rewrite lookup_delete_ne. }
  destruct (conns σ !! c ≫= instance) as [b|] eqn:Eb; [|done].
  split; [done|]. split; [|done]. simpl. rewrite <- Hw.
  apply list_lookup_alter_ne.
  rewrite Hk in Eb. destruct (conns σ0 !! c) as [k|] eqn:Ec; [|done].
  simpl in Eb. eauto.
Qed.

Lemma run_teardown_spares σ0 users σ :
  (∀ k b, conns σ0 !! c = Some k → instance k = Some b → b ≠ baileysInstance e) →
  spared u e σ0 σ → spared u e σ0 (run_handlers (teardown c) users σ).
Proof.
  intros Hinst. revert σ. induction users as [|u' users IH]; intros σ Hσ; simpl; [done|].
  by apply IH, teardown_spares.
Qed.

Lemma disconnect_spares σ :
  owns σ → activeSockets σ !! u = Some e →
  activeSockets (step σ (ClientDisconnect c)) !! u = Some e ∧
  wasockets (step σ (ClientDisconnect c)) !! baileysInstance e
  = wasockets σ !! baileysInstance e.
Proof.
  intros (I1 & I2) He. simpl. unfold dispatch.
  destruct (conns σ !! c) as [k|] eqn:Ek; [|done].
  destruct (listening k && alive k); [|done].
  assert (spared u e σ (run_handlers (teardown c) (on_disconnect k) σ)) as (? & ? & ?).
  { apply run_teardown_spares; [|done].
    intros k' b Hk' Hb ->. specialize (I1 _ _ _ Hk' Hb). specialize (I2 _ _ He).
    congruence. }
  done.
Qed.
End StaleTeardown.

(** C7.  When the transport of client [c] disconnects, an entry whose
    stored [clientId] is another client's is left exactly as it was, and so
    is the protocol socket it names; hence an entry that is removed, or a
    socket that is released, belonged to [c]. *)
Theorem disconnect_only_tears_down_own σ c u e :
  reachable σ →
  activeSockets σ !! u = Some e →
  let σ' := step σ (ClientDisconnect c) in
  (clientId e ≠ c →
     activeSockets σ' !! u = Some e ∧
     wasockets σ' !! baileysInstance e = wasockets σ !! baileysInstance e) ∧
  (activeSockets σ' !! u = None → clientId e = c) ∧
  (wasockets σ' !! baileysInstance e ≠ wasockets σ !! baileysInstance e →
     clientId e = c).
Proof.
  intros Hσ He σ'. apply reachable_owns in Hσ.
  pose proof (λ H, disconnect_spares c u e H σ Hσ He) as Hsp. fold σ' in Hsp.
  split; [done|].
  split; intros Hchg; destruct (decide (clientId e = c)) as [|Hne]; try done;
    destruct (Hsp Hne) as [Ha Hw]; congruence.
Qed.

Lemma disconnect_only_tears_down_own_witness :
  let σ := run init Scenario.two_owners in
  let σ' := step σ (ClientDisconnect "A") in
  activeSockets σ !! "v" = Some (mkEntry "A" 2) ∧
  activeSockets σ' !! "v" = None ∧
  activeSockets σ' !! "u" = Some (mkEntry "B" 1) ∧
  wasockets σ' !! 1 = wasockets σ !! 1.
Proof.
  assert (Hr : reachable (run init Scenario.two_owners))
    by (apply reachable_run; constructor).
  assert (Hu : activeSockets (run init Scenario.two_owners) !! "u" = Some (mkEntry "B" 1))
    by (vm_compute; reflexivity).
  pose proof (disconnect_only_tears_down_own _ "A" "u" (mkEntry "B" 1) Hr Hu) as [H _].
  assert (Hne : clientId (mkEntry "B" 1) ≠ "A") by (vm_compute; discriminate).
  destruct (H Hne) as [Ha Hw].
  split; [vm_compute; reflexivity|]. split; [vm_compute; reflexivity|].
  split; [exact Ha | exact Hw].
Defined.

(** ** The open branch and the group sync *)

Lemma keeps_refl σ : keeps σ σ.
Proof. split; eauto. Qed.

Lemma keeps_trans σ1 σ2 σ3 : keeps σ1 σ2 → keeps σ2 σ3 → keeps σ1 σ3.
Proof.
  intros (S1 & P1) (S2 & P2). split; [eauto|].
  intros i s u H. destruct (P2 i s u H) as [H2|]; [|eauto].
  destruct (P1 i s u H2); eauto.
Qed.

Lemma keeps_frame σ σ' :
  userStores σ' = userStores σ → pending σ' = pending σ → keeps σ σ'.
Proof. intros HS HP. unfold keeps. rewrite HS, HP. eauto. Qed.

Lemma keeps_suspend t σ :
  (∀ s u, t = AwaitGroups s u → is_Some (userStores σ !! u)) →
  keeps σ (suspend t σ).
Proof.
  intros Ht. split; [done|]. intros i s u. simpl.
  intros [H|[_ H]]%lookup_app_Some; [by left|right].
  apply list_lookup_singleton_Some in H as [_ H]. simplify_eq. eauto.
Qed.

Lemma keeps_park i t σ : is_group_sync t = false → keeps σ (park i t σ).
Proof.
  intros Ht. split; [done|]. intros j s u. simpl. intros H. left.
  apply list_lookup_insert_Some in H as [(-> & H & _)|[_ H]]; [|done].
  by simplify_eq.
Qed.

Lemma keeps_finish i σ : keeps σ (finish i σ).
Proof.
  split; [done|]. intros j s u. simpl. intros H. left.
  apply list_lookup_insert_Some in H as [(-> & H & _)|[_ H]]; done.
Qed.

Lemma keeps_createUserStore u σ : keeps σ (createUserStore u σ).
Proof.
  unfold createUserStore. destruct (userStores σ !! u) eqn:E; [apply keeps_refl|].
  split; [|by left]. intros u' H. simpl. rewrite lookup_insert. by case_decide.
Qed.

Lemma createUserStore_ready u σ : is_Some (userStores (createUserStore u σ) !! u).
Proof.
  unfold createUserStore. destruct (userStores σ !! u) eqn:E; [by rewrite E|].
  simpl. by rewrite lookup_insert_eq.
Qed.

Lemma keeps_groups_fetched u groups σ : keeps σ (groups_fetched u groups σ).
Proof.
  split; [|by left]. intros u'. simpl. by rewrite lookup_alter_is_Some.
Qed.

(** Peels the updates off the right-hand state, one at a time. *)
Ltac peel :=
  lazymatch goal with
  | |- keeps ?σ ?σ => apply keeps_refl
  | |- keeps ?σ (?f ?σ1) =>
      apply (keeps_trans σ σ1 (f σ1));
      [peel | first [ by apply keeps_frame
                    | apply keeps_finish
                    | by apply keeps_park
                    | by apply keeps_suspend
                    | apply keeps_createUserStore
                    | apply keeps_groups_fetched ]]
  end.

Lemma keeps_after_try c u σ : keeps σ (after_try c u σ).
Proof.
  unfold after_try. destruct (conns σ !! c) as [k|]; [|peel].
  destruct (instance k); [by apply keeps_frame | peel].
Qed.

Lemma keeps_teardown c u σ : keeps σ (teardown c u σ).
Proof.
  unfold teardown. destruct (activeSockets σ !! u); [|peel].
  destruct (String.eqb _ c); [|peel].
  destruct (conns σ !! c ≫= instance); by apply keeps_frame.
Qed.

Lemma keeps_listGroups c u σ : keeps σ (listGroups c u σ).
Proof. unfold listGroups. destruct (getUserStore u σ); peel. Qed.

Lemma keeps_run_handlers h users σ :
  (∀ u σ, keeps σ (h u σ)) → keeps σ (run_handlers h users σ).
Proof.
  intros Hh. revert σ. induction users as [|u users IH]; intros σ; simpl.
  - apply keeps_refl.
  - eapply keeps_trans; [apply Hh | apply IH].
Qed.

Lemma keeps_on_open s c u σ : keeps σ (on_open s c u σ).
Proof.
  unfold on_open.
  eapply keeps_trans; [|apply keeps_suspend].
  - peel.
  - intros s' u' [= _ <-]. apply createUserStore_ready.
Qed.

Lemma keeps_connection_update s up σ : keeps σ (connection_update s up σ).
Proof.
  unfold connection_update. destruct (wasockets σ !! s) as [w|]; [|peel].
  destruct (on_connection_update w); [|peel].
  eapply keeps_trans with (relay_qr (ws_client w) up σ).
  { unfold relay_qr. destruct (truthy (qr up)); peel. }
  destruct (connection up) as [[]|]; try peel.
  - apply keeps_on_open.
  - unfold on_close, connectWhatsApp.
    destruct (activeSockets _ !! _); [|peel].
    destruct (shouldReconnect up); [peel|].
    case_bool_decide; [by apply keeps_frame | peel].
Qed.

Lemma keeps_resume i r σ : keeps σ (resume i r σ).
Proof.
  unfold resume.
  destruct (pending σ !! i) as [[[who c u|who c u|s u|c b g m]|]|]; try peel.
  - destruct r; try peel; destruct who; simpl;
      (eapply keeps_trans; [|apply keeps_after_try]) || idtac; peel.
  - destruct r, who; simpl;
      (eapply keeps_trans; [|apply keeps_after_try]) || idtac;
      try peel; (eapply keeps_trans; [|by apply keeps_frame]); peel.
  - destruct r; peel.
  - destruct r; peel.
Qed.

Lemma keeps_step σ e : keeps σ (step σ e).
Proof.
  destruct e; simpl; try apply keeps_connection_update; try apply keeps_resume;
    unfold dispatch, new_connection, messages_upsert, store_flush;
    repeat (lazymatch goal with
            | |- keeps _ (match ?x with _ => _ end) => destruct x
            end); try peel; try (by apply keeps_frame).
  - unfold auth, connectWhatsApp. destruct (truthy userId); [|peel].
    destruct (activeSockets σ !! _); peel.
  - unfold sendMessage. destruct (conns σ !! c ≫= instance); peel.
  - apply keeps_run_handlers, keeps_listGroups.
  - eapply keeps_trans; [apply keeps_run_handlers, keeps_teardown|].
    by apply keeps_frame.
  - match goal with |- keeps _ (fold_left _ ?l _) => generalize l end.
    intros l. revert σ. induction l as [|c l IH]; intros σ; simpl; [peel|].
    eapply keeps_trans; [|apply IH]. peel.
Qed.

Lemma stores_ready_step σ e : stores_ready σ → stores_ready (step σ e).
Proof.
  intros Hσ i s u H. destruct (keeps_step σ e) as [S P].
  destruct (P i s u H); eauto.
Qed.

Lemma reachable_stores_ready σ : reachable σ → stores_ready σ.
Proof.
  induction 1; [|by apply stores_ready_step].
  intros i s u H. simpl in H. by rewrite lookup_nil in H.
Qed.

(** A store, once made, is there for good. *)
Lemma store_persists σ e u :
  is_Some (userStores σ !! u) → is_Some (userStores (step σ e) !! u).
Proof. apply keeps_step. Qed.

(** *** Insert-if-absent *)

Lemma chats_get_insert_old j c st ch :
  chats_get j st = Some ch → chats_get j (chats_insert c st) = Some ch.
Proof.
  unfold chats_get, chats_insert. simpl.
  induction (chats st) as [|x l IH]; simpl; [done|].
  destruct (String.eqb (id x) j); [done | exact IH].
Qed.

Lemma chats_get_insert_new c st :
  chats_get (id c) st = None → chats_get (id c) (chats_insert c st) = Some c.
Proof.
  unfold chats_get, chats_insert. simpl.
  induction (chats st) as [|x l IH]; simpl.
  - by rewrite String.eqb_refl.
  - destruct (String.eqb (id x) (id c)); [done | exact IH].
Qed.

Lemma chats_has_get i st ch : chats_get i st = Some ch → chats_has i st = true.
Proof.
  intros H. unfold chats_has. rewrite H, bool_decide_eq_true_2; [|by eexists].
  apply orb_true_r.
Qed.

Lemma chats_has_false i st :
  chats_has i st = false → inherited i = false ∧ chats_get i st = None.
Proof.
  unfold chats_has. intros [Hi Hg]%orb_false_iff. split; [done|].
  apply bool_decide_eq_false in Hg. destruct (chats_get i st); [|done].
  destruct Hg. by eexists.
Qed.

Lemma chats_has_own i st :
  chats_has i st = true → inherited i = false → is_Some (chats_get i st).
Proof.
  unfold chats_has. intros H Hi. rewrite Hi in H. simpl in H.
  by apply bool_decide_eq_true in H.
Qed.

Lemma syncChats_keeps cs st j ch :
  chats_get j st = Some ch → chats_get j (syncChats cs st) = Some ch.
Proof.
  revert st. induction cs as [|c cs IH]; intros st H; simpl; [done|].
  apply IH. destruct (chats_has (id c) st); [done|].
  by apply chats_get_insert_old.
Qed.

Lemma syncChats_keeps_has cs st j :
  chats_has j st = true → chats_has j (syncChats cs st) = true.
Proof.
  unfold chats_has. intros [Hi|Hg]%orb_true_iff; [by rewrite Hi|].
  apply bool_decide_eq_true in Hg as [ch Hch].
  rewrite (syncChats_keeps cs st j ch Hch), bool_decide_eq_true_2; [|by eexists].
  apply orb_true_r.
Qed.

(** After a sync the lookup of line 132 succeeds for every chat of the
    listing. *)
Lemma syncChats_adds cs st c :
  c ∈ cs → chats_has (id c) (syncChats cs st) = true.
Proof.
  revert st. induction cs as [|c0 cs IH]; intros st Hin; [by apply elem_of_nil in Hin|].
  apply elem_of_cons in Hin as [->|Hin]; simpl; [|by apply IH].
  apply syncChats_keeps_has.
  destruct (chats_has (id c0) st) eqn:E; [done|].
  apply chats_has_false in E as [_ E].
  by apply (chats_has_get _ _ c0), chats_get_insert_new.
Qed.

Lemma chats_get_elem j st ch :
  chats_get j st = Some ch → In ch (chats st) ∧ id ch = j.
Proof.
  unfold chats_get. intros H. apply List.find_some in H as [Hin Heq].
  split; [done|]. by apply String.eqb_eq.
Qed.

(** No name an object inherits ends in [@g.us]. *)
Lemma group_id_not_inherited i : endsWith i "@g.us" = true → inherited i = false.
Proof.
  intros Hsuf. destruct (inherited i) eqn:E; [|done].
  unfold inherited in E. apply existsb_exists in E as (n & Hn & ->%String.eqb_eq).
  simpl in Hn. repeat (destruct Hn as [<-|Hn]; [by vm_compute in Hsuf|]). done.
Qed.

(** Every synced group with a group id is among what ['listGroups'] sends. *)
Lemma groupsOf_synced gs st g :
  g ∈ gs → endsWith (g_id g) "@g.us" = true →
  ∃ ch, In ch (groupsOf (syncChats (map toChat gs) st)) ∧ id ch = g_id g.
Proof.
  intros Hin Hsuf.
  destruct (chats_has_own (id (toChat g)) (syncChats (map toChat gs) st)) as [ch Hch].
  { apply syncChats_adds, list_elem_of_fmap. eauto. }
  { by apply group_id_not_inherited. }
  apply chats_get_elem in Hch as [Hch Hid]. exists ch. split; [|done].
  unfold groupsOf. apply List.filter_In. split; [done|].
  rewrite Hid. exact Hsuf.
Qed.

Section OpenBranch.
Variables (σ : State) (s : SockId) (w : WASocket) (up : Update).
Hypothesis Hsock : wasockets σ !! s = Some w.
Hypothesis Hon : on_connection_update w = true.
Hypothesis Hopen : connection up = Some conn_open.

Lemma open_step :
  step σ (ConnectionUpdate s up)
  = on_open s (ws_client w) (ws_user w) (relay_qr (ws_client w) up σ).
Proof. simpl. unfold connection_update. by rewrite Hsock, Hon, Hopen. Qed.

Lemma open_emitted :
  emitted (step σ (ConnectionUpdate s up))
  = emitted σ ++ qr_events (ws_client w) up ++ [(ws_client w, EvStatus connected)].
Proof.
  rewrite open_step. unfold on_open, createUserStore. simpl.
  destruct (userStores _ !! _); simpl; by rewrite relay_qr_emitted, <- app_assoc.
Qed.

Lemma open_store :
  userStores (step σ (ConnectionUpdate s up)) !! ws_user w
  = Some (default (mkStore (default [] (files σ !! storeFilePath (ws_user w))))
                  (userStores σ !! ws_user w)).
Proof.
  rewrite open_step. unfold on_open, createUserStore. simpl.
  replace (userStores (relay_qr (ws_client w) up σ)) with (userStores σ) by qr_frame.
  replace (files (relay_qr (ws_client w) up σ)) with (files σ) by qr_frame.
  destruct (userStores σ !! ws_user w) as [st|] eqn:E; simpl.
  - by replace (userStores (relay_qr (ws_client w) up σ)) with (userStores σ) by qr_frame.
  - by rewrite lookup_insert_eq.
Qed.

Lemma open_pending :
  pending (step σ (ConnectionUpdate s up))
  = pending σ ++ [Some (AwaitGroups s (ws_user w))].
Proof.
  rewrite open_step. unfold on_open, createUserStore. simpl.
  destruct (userStores _ !! _); simpl; qr_frame.
Qed.
End OpenBranch.

(** The listing arrives: lines 121-137. *)
Lemma groups_settle σ i s u gs st :
  pending σ !! i = Some (Some (AwaitGroups s u)) →
  userStores σ !! u = Some st →
  userStores (step σ (Settle i (ResolvedGroups gs))) !! u
  = Some (syncChats (map toChat gs) st) ∧
  emitted (step σ (Settle i (ResolvedGroups gs))) = emitted σ.
Proof.
  intros Hp Hst. simpl. unfold resume. rewrite Hp. simpl.
  by rewrite lookup_alter_eq, Hst.
Qed.

(** C8, amended.  On the open event the client is told ['connected']
    first; in the same step the store of [u] is fetched, or created from
    its snapshot, and the group listing is requested.  The groups enter the
    store only when the listing arrives: then the lookup by id succeeds for
    every returned group, with a chat of the store behind it unless the id
    is a name every object inherits, chats that were there are kept as they
    were, nothing more is emitted, and a ['listGroups'] then lists a chat
    under the id of every returned group whose id ends in [@g.us]. *)
Theorem open_notifies_then_syncs σ s w up :
  wasockets σ !! s = Some w →
  on_connection_update w = true →
  connection up = Some conn_open →
  let σ1 := step σ (ConnectionUpdate s up) in
  emitted σ1 = emitted σ ++ qr_events (ws_client w) up
                 ++ [(ws_client w, EvStatus connected)] ∧
  userStores σ1 !! ws_user w
  = Some (default (mkStore (default [] (files σ !! storeFilePath (ws_user w))))
                  (userStores σ !! ws_user w)) ∧
  pending σ1 = pending σ ++ [Some (AwaitGroups s (ws_user w))] ∧
  ∀ σ2 i gs,
    reachable σ2 →
    pending σ2 !! i = Some (Some (AwaitGroups s (ws_user w))) →
    let σ3 := step σ2 (Settle i (ResolvedGroups gs)) in
    ∃ st,
      userStores σ2 !! ws_user w = Some st ∧
      userStores σ3 !! ws_user w = Some (syncChats (map toChat gs) st) ∧
      (∀ g, g ∈ gs → chats_has (g_id g) (syncChats (map toChat gs) st) = true) ∧
      (∀ g, g ∈ gs → inherited (g_id g) = false →
            is_Some (chats_get (g_id g) (syncChats (map toChat gs) st))) ∧
      (∀ j ch, chats_get j st = Some ch →
               chats_get j (syncChats (map toChat gs) st) = Some ch) ∧
      (∀ g, g ∈ gs → endsWith (g_id g) "@g.us" = true →
            ∃ ch, In ch (groupsOf (syncChats (map toChat gs) st)) ∧ id ch = g_id g) ∧
      emitted σ3 = emitted σ2.
Proof.
  intros Hsock Hon Hopen σ1. subst σ1.
  split; [by apply open_emitted|].
  split; [by apply open_store|].
  split; [by apply open_pending|].
  intros σ2 i gs Hσ2 Hp σ3. subst σ3.
  destruct (reachable_stores_ready σ2 Hσ2 i s (ws_user w) Hp) as [st Hst].
  exists st. destruct (groups_settle σ2 i s (ws_user w) gs st Hp Hst) as [Hs He].
  split; [done|]. split; [done|].
  assert (∀ g, g ∈ gs → chats_has (g_id g) (syncChats (map toChat gs) st) = true)
    as Hhas.
  { intros g Hg. change (g_id g) with (id (toChat g)).
    apply syncChats_adds, list_elem_of_fmap. eauto. }
  split; [done|].
  split; [intros g Hg Hi; by apply chats_has_own; [apply Hhas|]|].
  split; [intros j ch; apply syncChats_keeps|].
  split; [intros g; apply groupsOf_synced | done].
Qed.

Lemma open_notifies_then_syncs_witness :
  let σ := run init Scenario.authenticated in
  let σ1 := step σ (ConnectionUpdate 0 opened) in
  let σ3 := step σ1 (Settle 1 (ResolvedGroups [Scenario.g1; Scenario.g2])) in
  emitted σ1 = emitted σ ++ [("A", EvStatus connected)] ∧
  userStores σ1 !! "u" = Some (mkStore []) ∧
  (∃ st, userStores σ1 !! "u" = Some st ∧
         userStores σ3 !! "u"
         = Some (syncChats (map toChat [Scenario.g1; Scenario.g2]) st) ∧
         ∀ g, g ∈ [Scenario.g1; Scenario.g2] →
              chats_has (g_id g) (syncChats (map toChat [Scenario.g1; Scenario.g2]) st)
              = true) ∧
  emitted σ3 = emitted σ1.
Proof.
  pose proof (open_notifies_then_syncs (run init Scenario.authenticated) 0
                (mkSock "u" "A" true true ["A"] false) opened) as H.
  assert (H1 : wasockets (run init Scenario.authenticated) !! 0
               = Some (mkSock "u" "A" true true ["A"] false)) by (vm_compute; reflexivity).
  destruct (H H1 eq_refl eq_refl) as (He & _ & _ & Hsync).
  split; [exact He|]. split; [vm_compute; reflexivity|].
  assert (Hr : reachable (step (run init Scenario.authenticated) (ConnectionUpdate 0 opened)))
    by (constructor; apply reachable_run; constructor).
  assert (Hp : pending (step (run init Scenario.authenticated) (ConnectionUpdate 0 opened)) !! 1
               = Some (Some (AwaitGroups 0 "u"))) by (vm_compute; reflexivity).
  destruct (Hsync _ 1 [Scenario.g1; Scenario.g2] Hr Hp)
    as (st & Hst & Hst3 & Hhas & _ & _ & _ & Hsame).
  split; [|exact Hsame].
  exists st. split; [exact Hst|]. split; [exact Hst3 | exact Hhas].
Defined.

(** ** Handlers pile up *)

Lemma truthy_nonempty u : u ≠ "" → truthy (Some u) = Some u.
Proof. by destruct u. Qed.

(** An ['auth'] for a free user that is established without interleaving:
    the entry is made with a new socket, and the client gets one more
    ['disconnect'] and one more ['listGroups'] handler. *)
Lemma auth_established_registers σ c k u :
  conns σ !! c = Some k → listening k = true → alive k = true →
  u ≠ "" → activeSockets σ !! u = None →
  conns (auth_established c u σ) !! c
  = Some (mkConn true (Some (length (wasockets σ)))
            (on_disconnect k ++ [u]) (on_listGroups k ++ [u]) true) ∧
  activeSockets (auth_established c u σ)
  = <[u := mkEntry c (length (wasockets σ))]> (activeSockets σ) ∧
  emitted (auth_established c u σ) = emitted σ ∧
  unhandled (auth_established c u σ) = unhandled σ.
Proof.
  intros Hk Hl Ha Hu Hfree. unfold auth_established, run. simpl.
  unfold dispatch. rewrite Hk, Hl, Ha. simpl.
  unfold auth. rewrite truthy_nonempty, Hfree by done.
  unfold connectWhatsApp, resume. simpl.
  rewrite lookup_app_r, Nat.sub_diag by done. simpl.
  rewrite list_lookup_insert_eq by (rewrite length_app; simpl; lia). simpl.
  unfold after_try. simpl.
  rewrite lookup_alter_eq, Hk. simpl.
  rewrite lookup_insert_eq, Hl, Ha. done.
Qed.

Lemma auths_established_register users : ∀ σ c k,
  conns σ !! c = Some k → listening k = true → alive k = true →
  NoDup users →
  (∀ u, u ∈ users → u ≠ "" ∧ activeSockets σ !! u = None) →
  ∃ kN, conns (auths_established c users σ) !! c = Some kN ∧
        listening kN = true ∧ alive kN = true ∧
        on_disconnect kN = on_disconnect k ++ users ∧
        on_listGroups kN = on_listGroups k ++ users.
Proof.
  induction users as [|u users IH]; intros σ c k Hk Hl Ha Hnd Hfree; simpl.
  - exists k. by rewrite !app_nil_r.
  - apply NoDup_cons in Hnd as [Hnotin Hnd].
    destruct (Hfree u) as [Hu Hnone]; [by left|].
    destruct (auth_established_registers σ c k u Hk Hl Ha Hu Hnone)
      as (Hk' & HA' & _ & _).
    destruct (IH _ c _ Hk' eq_refl eq_refl Hnd) as (kN & HkN & HlN & HaN & HdN & HgN).
    { intros u' Hu'. destruct (Hfree u') as [? ?]; [by right|]. split; [done|].
      rewrite HA', lookup_insert_ne; [done|]. by intros ->. }
    exists kN. simpl in HdN, HgN. by rewrite HdN, HgN, <- !app_assoc.
Qed.

(** Whatever else is going on, the ['auth'] of client [c] for [u] whose
    connection is established registers exactly one more handler of each
    kind (lines 183 and 202). *)
Lemma established_auth_registers σ i c u k :
  pending σ !! i = Some (Some (AwaitVersion FromAuth c u)) →
  conns σ !! c = Some k →
  conns (step σ (Settle i Resolved)) !! c
  = Some (mkConn (listening k) (Some (length (wasockets σ)))
            (on_disconnect k ++ [u]) (on_listGroups k ++ [u]) (alive k)).
Proof.
  intros Hp Hk. simpl. unfold resume. rewrite Hp. simpl.
  unfold after_try. simpl. rewrite lookup_alter_eq, Hk. simpl.
  by rewrite lookup_insert_eq.
Qed.

(** What one ['listGroups'] command makes the handlers of [users] emit. *)
Lemma listGroups_handlers_emit c users : ∀ σ,
  userStores (run_handlers (listGroups c) users σ) = userStores σ ∧
  emitted (run_handlers (listGroups c) users σ)
  = emitted σ ++ omap (λ u, (λ st, (c, EvGroups (groupsOf st))) <$> userStores σ !! u) users.
Proof.
  induction users as [|u users IH]; intros σ; simpl.
  - by rewrite app_nil_r.
  - destruct (IH (listGroups c u σ)) as [IHs IHe]. rewrite IHs, IHe.
    unfold listGroups, getUserStore.
    destruct (userStores σ !! u) as [st|]; simpl; [|done].
    by rewrite <- app_assoc.
Qed.

Lemma groups_emitted_app c σ σ' l :
  emitted σ' = emitted σ ++ l →
  groups_emitted c σ' = groups_emitted c σ + length (List.filter (is_groups_for c) l).
Proof. unfold groups_emitted. intros ->. by rewrite List.filter_app, length_app. Qed.

Lemma listGroups_counts c users σ :
  (∀ u, u ∈ users → is_Some (userStores σ !! u)) →
  groups_emitted c (run_handlers (listGroups c) users σ)
  = groups_emitted c σ + length users.
Proof.
  intros Hst. destruct (listGroups_handlers_emit c users σ) as [_ He].
  rewrite (groups_emitted_app _ _ _ _ He). f_equal. clear He.
  induction users as [|u users IH]; simpl; [done|].
  destruct (Hst u) as [st ->]; [by left|]. simpl.
  rewrite String.eqb_refl. simpl. f_equal. apply IH.
  intros u' Hu'. apply Hst. by right.
Qed.

(** After the ['disconnect'] handlers of [c] ran, [c] owns none of their
    users. *)
Lemma teardown_disowns c u σ e :
  activeSockets (teardown c u σ) !! u = Some e → clientId e ≠ c.
Proof.
  unfold teardown. destruct (activeSockets σ !! u) as [e'|] eqn:E.
  - destruct (String.eqb (clientId e') c) eqn:Eq.
    + destruct (conns σ !! c ≫= instance); simpl; by rewrite lookup_delete_eq.
    + rewrite E. intros [= <-]. by apply String.eqb_neq.
  - by rewrite E.
Qed.

Lemma run_teardown_disowns c users : ∀ σ u e,
  u ∈ users →
  activeSockets (run_handlers (teardown c) users σ) !! u = Some e → clientId e ≠ c.
Proof.
  induction users as [|u0 users IH]; intros σ u e Hin; [by apply elem_of_nil in Hin|].
  simpl. destruct (decide (u ∈ users)) as [|Hnot]; [by apply IH|].
  apply elem_of_cons in Hin as [->|]; [|done].
  intros He. apply (teardown_disowns c u0 σ).
  by apply (tame_run_handlers (teardown c) users (teardown c u0 σ) (tame_teardown c)).
Qed.

Section Registered.
Variables (σ : State) (c : string) (k : Conn).
Hypothesis Hk : conns σ !! c = Some k.
Hypothesis Hl : listening k = true.
Hypothesis Ha : alive k = true.

Lemma listGroups_command :
  step σ (ClientListGroups c) = run_handlers (listGroups c) (on_listGroups k) σ.
Proof. simpl. unfold dispatch. by rewrite Hk, Hl, Ha. Qed.

Lemma disconnect_command :
  step σ (ClientDisconnect c)
  = client_gone c (run_handlers (teardown c) (on_disconnect k) σ).
Proof. simpl. unfold dispatch. by rewrite Hk, Hl, Ha. Qed.
End Registered.

(** C10, amended.  Each ['auth'] of a client that passes both rejections
    and whose connection is then established registers one more
    ['disconnect'] handler and one more ['listGroups'] handler, in
    whatever state the connection is established: after [N] such requests
    in a row, for [N] different free users, the client has [N] more of
    each.  One ['listGroups'] command then runs every registered handler,
    and emits ['groups'] once for each handler whose user has a store,
    which is once per handler when all of them have; one transport
    disconnect runs every registered teardown, after which the client owns
    the entry of none of those users. *)
Theorem handlers_accumulate σ c k users :
  conns σ !! c = Some k → listening k = true → alive k = true →
  NoDup users →
  (∀ u, u ∈ users → u ≠ "" ∧ activeSockets σ !! u = None) →
  (∃ kN, conns (auths_established c users σ) !! c = Some kN ∧
         listening kN = true ∧ alive kN = true ∧
         on_disconnect kN = on_disconnect k ++ users ∧
         on_listGroups kN = on_listGroups k ++ users) ∧
  (∀ σ0 i u k0,
     pending σ0 !! i = Some (Some (AwaitVersion FromAuth c u)) →
     conns σ0 !! c = Some k0 →
     ∃ k1, conns (step σ0 (Settle i Resolved)) !! c = Some k1 ∧
           on_disconnect k1 = on_disconnect k0 ++ [u] ∧
           on_listGroups k1 = on_listGroups k0 ++ [u]) ∧
  ∀ σ' k',
    conns σ' !! c = Some k' → listening k' = true → alive k' = true →
    emitted (step σ' (ClientListGroups c))
    = emitted σ' ++ omap (λ u, (λ st, (c, EvGroups (groupsOf st))) <$> userStores σ' !! u)
                      (on_listGroups k') ∧
    ((∀ u, u ∈ on_listGroups k' → is_Some (userStores σ' !! u)) →
       groups_emitted c (step σ' (ClientListGroups c))
       = groups_emitted c σ' + length (on_listGroups k')) ∧
    step σ' (ClientDisconnect c)
    = client_gone c (run_handlers (teardown c) (on_disconnect k') σ') ∧
    (∀ u e, u ∈ on_disconnect k' →
            activeSockets (step σ' (ClientDisconnect c)) !! u = Some e →
            clientId e ≠ c).
Proof.
  intros Hk Hl Ha Hnd Hfree.
  split; [by apply auths_established_register|].
  split.
  { intros σ0 i u k0 Hp Hk0. eexists. split; [by apply established_auth_registers|].
    done. }
  intros σ' k' Hk' Hl' Ha'.
  rewrite (listGroups_command σ' c k') by done.
  rewrite (disconnect_command σ' c k') by done.
  split; [apply listGroups_handlers_emit|].
  split; [apply listGroups_counts|].
  split; [done|].
  intros u e Hu. simpl. by apply run_teardown_disowns.
Qed.

Lemma handlers_accumulate_witness :
  let σ := run init [Connect "A"] in
  let σN := auths_established "A" ["u"; "v"] σ in
  let σ' := run σN [ConnectionUpdate 0 opened; ConnectionUpdate 1 opened] in
  (on_listGroups <$> conns σN !! "A") = Some ["u"; "v"] ∧
  (on_disconnect <$> conns σN !! "A") = Some ["u"; "v"] ∧
  groups_emitted "A" (step σ' (ClientListGroups "A")) = groups_emitted "A" σ' + 2 ∧
  activeSockets σ' !! "u" = Some (mkEntry "A" 0) ∧
  activeSockets (step σ' (ClientDisconnect "A")) !! "u" = None.
Proof.
  pose proof (handlers_accumulate (run init [Connect "A"]) "A"
                (mkConn true None [] [] true) ["u"; "v"]) as H.
  assert (H1 : conns (run init [Connect "A"]) !! "A" = Some (mkConn true None [] [] true))
    by (vm_compute; reflexivity).
  assert (H2 : NoDup ["u"; "v"]).
  { apply NoDup_cons. split; [|apply NoDup_singleton].
    intros [=]%list_elem_of_singleton. }
  assert (H3 : ∀ u, u ∈ ["u"; "v"] →
                    u ≠ "" ∧ activeSockets (run init [Connect "A"]) !! u = None).
  { intros u [->|[->|[]%elem_of_nil]%elem_of_cons]%elem_of_cons; split;
      first [discriminate | vm_compute; reflexivity]. }
  destruct (H H1 eq_refl eq_refl H2 H3) as (_ & _ & Hcmd).
  split; [vm_compute; reflexivity|]. split; [vm_compute; reflexivity|].
  destruct (Hcmd (run (auths_established "A" ["u"; "v"] (run init [Connect "A"]))
                    [ConnectionUpdate 0 opened; ConnectionUpdate 1 opened])
                 (mkConn true (Some 1) ["u"; "v"] ["u"; "v"] true))
    as (_ & Hcount & _ & _); [vm_compute; reflexivity | reflexivity | reflexivity |].
  split.
  { apply Hcount. intros u Hu. simpl in Hu.
    apply elem_of_cons in Hu as [->|Hu];
      [|apply elem_of_cons in Hu as [->|Hu]; [|inversion Hu]];
      exists (mkStore []); vm_compute; reflexivity. }
  split; vm_compute; reflexivity.
Defined.

(** * Further properties of the relay *)

(** ** Handlers that only touch part of the state *)

Lemma run_teardown_frame c users : ∀ σ,
  userStores (run_handlers (teardown c) users σ) = userStores σ ∧
  conns (run_handlers (teardown c) users σ) = conns σ ∧
  dirs (run_handlers (teardown c) users σ) = dirs σ ∧
  files (run_handlers (teardown c) users σ) = files σ ∧
  pending (run_handlers (teardown c) users σ) = pending σ ∧
  emitted (run_handlers (teardown c) users σ) = emitted σ ∧
  unhandled (run_handlers (teardown c) users σ) = unhandled σ ∧
  length (wasockets (run_handlers (teardown c) users σ)) = length (wasockets σ).
Proof.
  induction users as [|u users IH]; intros σ; simpl; [done|].
  destruct (IH (teardown c u σ)) as (-> & -> & -> & -> & -> & -> & -> & ->).
  unfold teardown. destruct (activeSockets σ !! u); [|done].
  destruct (String.eqb _ c); [|done].
  destruct (conns σ !! c ≫= instance); simpl; [|done].
  by rewrite length_alter.
Qed.

Lemma run_listGroups_frame c users σ :
  activeSockets (run_handlers (listGroups c) users σ) = activeSockets σ ∧
  conns (run_handlers (listGroups c) users σ) = conns σ ∧
  wasockets (run_handlers (listGroups c) users σ) = wasockets σ ∧
  files (run_handlers (listGroups c) users σ) = files σ ∧
  pending (run_handlers (listGroups c) users σ) = pending σ.
Proof.
  revert σ. induction users as [|u users IH]; intros σ; simpl; [done|].
  destruct (IH (listGroups c u σ)) as (-> & -> & -> & -> & ->).
  unfold listGroups. by destruct (getUserStore u σ).
Qed.

Lemma relay_messages_frame payload cs σ :
  let σ' := fold_left (λ σ c, emit c (EvMessage payload) σ) cs σ in
  activeSockets σ' = activeSockets σ ∧ userStores σ' = userStores σ ∧
  conns σ' = conns σ ∧ wasockets σ' = wasockets σ ∧ dirs σ' = dirs σ ∧
  files σ' = files σ ∧ pending σ' = pending σ ∧ unhandled σ' = unhandled σ ∧
  emitted σ' = emitted σ ++ map (λ c, (c, EvMessage payload)) cs.
Proof.
  revert σ. induction cs as [|c cs IH]; intros σ; simpl.
  - by rewrite app_nil_r.
  - destruct (IH (emit c (EvMessage payload) σ)) as (-> & -> & -> & -> & -> & -> & -> & -> & ->).
    simpl. by rewrite <- app_assoc.
Qed.

(** ** Requests that are turned away *)




(** X2.  A client that has just connected, under an id that is not a key
    of [activeSockets], has no protocol instance.  Its ['sendMessage'] with
    a payload is answered with the ['error'] of line 224; sent with
    nothing, line 221 throws before that check and nothing is sent.  Either
    way no protocol call is started and registry and sockets are
    untouched. *)
Theorem sendMessage_before_auth σ c groupId message :
  conns σ !! c = None → activeSockets σ !! c = None →
  let σ' := run σ [Connect c; ClientSendMessage c groupId message] in
  let σ'' := run σ [Connect c; ClientSendMessageNoPayload c] in
  (emitted σ' = emitted σ ++ [(c, EvError "Você não está conectado.")] ∧
   unhandled σ' = unhandled σ ∧
   pending σ' = pending σ ∧
   activeSockets σ' = activeSockets σ ∧
   wasockets σ' = wasockets σ) ∧
  (emitted σ'' = emitted σ ∧
   unhandled σ'' = unhandled σ ++ [TypeError_destructure c] ∧
   pending σ'' = pending σ ∧
   activeSockets σ'' = activeSockets σ ∧
   wasockets σ'' = wasockets σ).
Proof.
  intros Hc Hfree σ' σ''. subst σ' σ''. simpl. unfold new_connection. rewrite Hc.
  unfold dispatch. simpl. rewrite lookup_insert_eq. simpl.
  rewrite bool_decide_eq_true_2 by done. simpl.
  unfold sendMessage. simpl. by rewrite lookup_insert_eq.
Qed.

Lemma sendMessage_before_auth_witness :
  let σ := run init Scenario.authenticated in
  let σ' := run σ [Connect "B"; ClientSendMessage "B" "1@g.us" "hi"] in
  let σ'' := run σ [Connect "B"; ClientSendMessageNoPayload "B"] in
  emitted σ' = emitted σ ++ [("B", EvError "Você não está conectado.")] ∧
  pending σ' = pending σ ∧
  emitted σ'' = emitted σ ∧
  unhandled σ'' = unhandled σ ++ [TypeError_destructure "B"].
Proof.
  pose proof (sendMessage_before_auth (run init Scenario.authenticated) "B" "1@g.us" "hi") as H.
  assert (H1 : conns (run init Scenario.authenticated) !! "B" = None)
    by (vm_compute; reflexivity).
  assert (H2 : activeSockets (run init Scenario.authenticated) !! "B" = None)
    by (vm_compute; reflexivity).
  destruct (H H1 H2) as ((He & _ & Hp & _ & _) & (He' & Hu' & _)).
  split; [exact He|]. split; [exact Hp|]. split; [exact He' | exact Hu'].
Defined.

(** X3.  A client with a protocol instance that sends ['sendMessage'] with
    a payload gets nothing until the call settles, and then exactly one
    notification: ['messageStatus'] [sent] when it resolved, the ['error']
    of line 234 when it threw.  Registry and sockets are not touched, and
    the call is made on the [baileysInstance] variable of that client.
    Sent with nothing, the event throws at line 221: the instance is not
    called and nothing is ever sent. *)
Theorem sendMessage_reports_once σ c k b groupId message r :
  conns σ !! c = Some k → listening k = true → alive k = true →
  instance k = Some b →
  let n := length (pending σ) in
  let σ1 := step σ (ClientSendMessage c groupId message) in
  let σ2 := step σ1 (Settle n r) in
  pending σ1 = pending σ ++ [Some (AwaitSend c b groupId message)] ∧
  emitted σ1 = emitted σ ∧
  emitted σ2 = emitted σ ++ [(c, send_report r)] ∧
  pending σ2 = pending σ ++ [None] ∧
  activeSockets σ2 = activeSockets σ ∧
  wasockets σ2 = wasockets σ ∧
  conns σ2 = conns σ ∧
  step σ (ClientSendMessageNoPayload c) = reject (TypeError_destructure c) σ.
Proof.
  intros Hk Hl Ha Hb n σ1 σ2.
  assert (step σ (ClientSendMessageNoPayload c) = reject (TypeError_destructure c) σ)
    as Hbare by (simpl; unfold dispatch; by rewrite Hk, Hl, Ha).
  assert (σ1 = suspend (AwaitSend c b groupId message) σ) as E1.
  { subst σ1. simpl. unfold dispatch, sendMessage. rewrite Hk, Hl, Ha. simpl.
    by rewrite Hb. }
  subst σ2. rewrite E1. split; [done|]. split; [done|].
  simpl. unfold resume. simpl. subst n.
  rewrite lookup_app_r, Nat.sub_diag by done. simpl.
  assert (<[length (pending σ) := None]> (pending σ ++ [Some (AwaitSend c b groupId message)])
          = pending σ ++ [None]) as Hins.
  { rewrite insert_app_r_alt, Nat.sub_diag by done. done. }
  destruct r; simpl; by rewrite Hins.
Qed.

Lemma sendMessage_reports_once_witness :
  let σ := run init Scenario.authenticated in
  let σ2 := run σ [ClientSendMessage "A" "1@g.us" "hi"; Settle 1 Rejected] in
  emitted σ2 = emitted σ ++ [("A", EvError "Erro ao enviar mensagem.")] ∧
  activeSockets σ2 = activeSockets σ ∧
  step σ (ClientSendMessageNoPayload "A") = reject (TypeError_destructure "A") σ.
Proof.
  pose proof (sendMessage_reports_once (run init Scenario.authenticated) "A"
                (mkConn true (Some 0) ["u"] ["u"] true) 0 "1@g.us" "hi" Rejected) as H.
  assert (H1 : conns (run init Scenario.authenticated) !! "A"
               = Some (mkConn true (Some 0) ["u"] ["u"] true)) by (vm_compute; reflexivity).
  destruct (H H1 eq_refl eq_refl eq_refl) as (_ & _ & He & _ & HA & _ & _ & Hbare).
  split; [exact He|]. split; [exact HA | exact Hbare].
Defined.

(** ** The chat store *)

Lemma syncChats_present cs : ∀ st,
  (∀ c, c ∈ cs → chats_has (id c) st = true) → syncChats cs st = st.
Proof.
  induction cs as [|c cs IH]; intros st Hall; simpl; [done|].
  rewrite (Hall c) by (by left).
  apply IH. intros c' Hc'. apply Hall. by right.
Qed.

(** X4.  Syncing the same listing again changes nothing: every chat of the
    listing is found by id, so the second pass inserts none (lines
    131-136). *)
Theorem resync_changes_nothing cs st :
  syncChats cs (syncChats cs st) = syncChats cs st.
Proof. apply syncChats_present. intros c Hc. by apply syncChats_adds. Qed.

Lemma chats_get_none_notin i st :
  chats_get i st = None → i ∉ map id (chats st).
Proof.
  unfold chats_get. intros Hnone Hin.
  apply list_elem_of_fmap in Hin as (ch & -> & Hch).
  apply list_elem_of_In in Hch.
  pose proof (List.find_none _ _ Hnone ch Hch) as Hneq. simpl in Hneq.
  by rewrite String.eqb_refl in Hneq.
Qed.

Lemma sync_appends cs : ∀ st,
  unique_ids st →
  unique_ids (syncChats cs st) ∧
  ∃ added, chats (syncChats cs st) = chats st ++ added ∧
           ∀ c, c ∈ added → c ∈ cs ∧ chats_get (id c) st = None.
Proof.
  induction cs as [|c cs IH]; intros st Hst; simpl.
  - split; [done|]. exists []. split; [by rewrite app_nil_r|].
    intros c Hc. by apply elem_of_nil in Hc.
  - destruct (chats_has (id c) st) eqn:E.
    + destruct (IH st Hst) as (Hu & added & Heq & Hadd). split; [done|].
      exists added. split; [done|]. intros c' Hc'. destruct (Hadd c' Hc').
      split; [by right | done].
    + apply chats_has_false in E as [_ E].
      assert (unique_ids (chats_insert c st)) as Hst'.
      { unfold unique_ids, chats_insert. simpl. rewrite map_app. simpl.
        apply NoDup_app. split; [done|]. split; [|apply NoDup_singleton].
        intros i Hi Hi'. apply list_elem_of_singleton in Hi'. subst i.
        by apply (chats_get_none_notin (id c) st). }
      destruct (IH _ Hst') as (Hu & added & Heq & Hadd). split; [done|].
      exists (c :: added). split.
      { rewrite Heq. simpl. by rewrite <- app_assoc. }
      intros c' [->|Hc']%elem_of_cons; [split; [by left | done]|].
      destruct (Hadd c' Hc') as [? Hnone]. split; [by right|].
      destruct (chats_get (id c') st) as [ch'|] eqn:E'; [|done].
      by rewrite (chats_get_insert_old _ c st ch' E') in Hnone.
Qed.

(** X5.  A sync only adds: every chat the store had is still in it, every
    other chat of the store afterwards comes from the listing and had no
    chat under its id before, and when no two chats of the store shared an
    id, none do afterwards, whatever the listing repeats. *)
Theorem sync_adds_only_new_ids cs st :
  unique_ids st →
  unique_ids (syncChats cs st) ∧
  (∀ ch, ch ∈ chats st → ch ∈ chats (syncChats cs st)) ∧
  (∀ ch, ch ∈ chats (syncChats cs st) →
         ch ∈ chats st ∨ (ch ∈ cs ∧ chats_get (id ch) st = None)).
Proof.
  intros Hst. destruct (sync_appends cs st Hst) as (Hu & added & Heq & Hadd).
  split; [done|]. rewrite Heq. split.
  - intros ch Hch. apply elem_of_app. by left.
  - intros ch [Hch|Hch]%elem_of_app; [by left | right; by apply Hadd].
Qed.

Lemma sync_adds_only_new_ids_witness :
  let st := mkStore [toChat Scenario.g1] in
  let cs := [toChat Scenario.g1; toChat Scenario.g2; toChat Scenario.g2] in
  unique_ids (syncChats cs st) ∧
  (∀ ch, ch ∈ chats st → ch ∈ chats (syncChats cs st)) ∧
  length (chats (syncChats cs st)) = 2.
Proof.
  assert (H : unique_ids (mkStore [toChat Scenario.g1])).
  { unfold unique_ids. simpl. apply NoDup_singleton. }
  destruct (sync_adds_only_new_ids
              [toChat Scenario.g1; toChat Scenario.g2; toChat Scenario.g2]
              (mkStore [toChat Scenario.g1]) H) as (Hu & Hkeep & _).
  split; [exact Hu|]. split; [exact Hkeep | vm_compute; reflexivity].
Defined.

(** *** What ['listGroups'] sends *)

Lemma substring_all s : String.substring 0 (String.length s) s = s.
Proof. induction s as [|a s IH]; simpl; [done | by rewrite IH]. Qed.

Lemma substring_skip p s m :
  String.substring (String.length p) m (p +:+ s) = String.substring 0 m s.
Proof. induction p as [|a p IH]; simpl; [done | exact IH]. Qed.

Lemma length_app_string p s :
  String.length (p +:+ s) = String.length p + String.length s.
Proof. induction p as [|a p IH]; simpl; [done | by rewrite IH]. Qed.

Lemma substring_split s : ∀ k m,
  k + m = String.length s →
  s = String.substring 0 k s +:+ String.substring k m s.
Proof.
  induction s as [|a s IH]; intros k m Hlen; simpl in *.
  - destruct k, m; try done.
  - destruct k as [|k]; simpl.
    + destruct m as [|m]; [done|]. injection Hlen as Hlen.
      subst m. by rewrite substring_all.
    + change (String a s = String a (String.substring 0 k s +:+ String.substring k m s)).
      f_equal. apply IH. lia.
Qed.

(** [endsWith] is [String.prototype.endsWith]. *)
Lemma endsWith_spec s suffix :
  endsWith s suffix = true ↔ ∃ p, s = p +:+ suffix.
Proof.
  unfold endsWith. rewrite andb_true_iff, Nat.leb_le, String.eqb_eq. split.
  - intros [Hle Hsub]. exists (String.substring 0 (String.length s - String.length suffix) s).
    pose proof (substring_split s (String.length s - String.length suffix)
                  (String.length suffix)) as Hsplit.
    rewrite Hsub in Hsplit. apply Hsplit. lia.
  - intros [p ->]. rewrite length_app_string. split; [lia|].
    replace (String.length p + String.length suffix - String.length suffix)
      with (String.length p) by lia.
    by rewrite substring_skip, substring_all.
Qed.

(** X6.  The ['listGroups'] handler of a user that has a store sends
    exactly one ['groups'] event to its client and changes nothing else.
    Its payload holds the chats of the store whose id is some prefix
    followed by [@g.us], and no other chat. *)
Theorem listGroups_sends_group_chats c u σ st :
  getUserStore u σ = Some st →
  ∃ payload,
    listGroups c u σ = emit c (EvGroups payload) σ ∧
    ∀ ch, ch ∈ payload ↔ ch ∈ chats st ∧ ∃ p, id ch = p +:+ "@g.us".
Proof.
  intros Hst. exists (groupsOf st). unfold listGroups. rewrite Hst.
  split; [done|]. unfold groupsOf.
  intros ch. rewrite !list_elem_of_In, List.filter_In, endsWith_spec. done.
Qed.

Lemma listGroups_sends_group_chats_witness :
  let σ := run (boot ∅ {[ storeFilePath "u" := Runs.snapshot ]}) Scenario.connection_opened in
  ∃ payload,
    listGroups "A" "u" σ = emit "A" (EvGroups payload) σ ∧
    (toChat Scenario.g1 ∈ payload ∧ toChat Scenario.g2 ∈ payload ∧
     mkChat "5511@s.whatsapp.net" "ana" [] 0 0 [] ∉ payload).
Proof.
  destruct (listGroups_sends_group_chats "A" "u"
              (run (boot ∅ {[ storeFilePath "u" := Runs.snapshot ]})
                   Scenario.connection_opened)
              (mkStore Runs.snapshot))
    as (payload & He & Hin); [vm_compute; reflexivity|].
  exists payload. split; [exact He|].
  split; [|split].
  - apply Hin. split; [by left|]. by exists "1".
  - apply Hin. split; [right; right; by left|]. by exists "2".
  - intros [_ [p Hp]]%Hin. simpl in Hp.
    assert (endsWith "5511@s.whatsapp.net" "@g.us" = true) as Habs
        by (apply endsWith_spec; eauto).
    discriminate Habs.
Defined.

(** ** Connections and the registry over several events *)

(** X7.  A transport client whose id is a key of [activeSockets] when it
    connects gets no handler (lines 60-63): its ['auth'], ['sendMessage']
    and ['listGroups'] events are dropped without any effect. *)
Theorem client_named_like_a_user_is_ignored σ c :
  conns σ !! c = None → is_Some (activeSockets σ !! c) →
  let σ1 := step σ (Connect c) in
  activeSockets σ1 = activeSockets σ ∧ emitted σ1 = emitted σ ∧
  ∀ userId groupId message,
    step σ1 (ClientAuth c userId) = σ1 ∧
    step σ1 (ClientSendMessage c groupId message) = σ1 ∧
    step σ1 (ClientListGroups c) = σ1.
Proof.
  intros Hc [e He] σ1. subst σ1. simpl. unfold new_connection. rewrite Hc.
  split; [done|]. split; [done|]. intros userId groupId message.
  unfold dispatch. simpl. rewrite lookup_insert_eq. simpl.
  rewrite bool_decide_eq_false_2; [done|]. by rewrite He.
Qed.

Lemma client_named_like_a_user_is_ignored_witness :
  let σ1 := run init (Runs.namesake ++ [Connect "B"]) in
  step σ1 (ClientAuth "B" (Some "v")) = σ1 ∧
  step σ1 (ClientSendMessage "B" "1@g.us" "hi") = σ1.
Proof.
  pose proof (client_named_like_a_user_is_ignored (run init Runs.namesake) "B") as H.
  assert (H1 : conns (run init Runs.namesake) !! "B" = None) by (vm_compute; reflexivity).
  assert (H2 : is_Some (activeSockets (run init Runs.namesake) !! "B"))
    by (exists (mkEntry "A" 0); vm_compute; reflexivity).
  destruct (H H1 H2) as (_ & _ & Hev).
  destruct (Hev (Some "v") "1@g.us" "hi") as (Ha & Hs & _).
  unfold run. rewrite fold_left_app. split; [exact Ha | exact Hs].
Defined.

Section Reconnection.
Variables (σ : State) (s : SockId) (w : WASocket) (up : Update).
Hypothesis Hsock : wasockets σ !! s = Some w.
Hypothesis Hon : on_connection_update w = true.
Hypothesis Hclose : connection up = Some conn_close.
Hypothesis Hentry : is_Some (activeSockets σ !! ws_user w).
Hypothesis Hcode : statusCode up ≠ Some loggedOut.

Lemma reconnect_starts :
  step σ (ConnectionUpdate s up)
  = suspend (AwaitAuthState FromReconnect (ws_client w) (ws_user w))
      (relay_qr (ws_client w) up σ).
Proof.
  rewrite (close_step σ s w up) by done. unfold on_close.
  replace (activeSockets (relay_qr (ws_client w) up σ)) with (activeSockets σ)
    by qr_frame.
  destruct Hentry as [e ->]. by rewrite shouldReconnect_true.
Qed.

(** X8.  A reconnection that is established adds one socket for the same
    user and client, with its ['connection.update'] and ['creds.update']
    listeners and no ['messages.upsert'] relay; the socket that closed
    keeps its listeners, the registry and the [baileysInstance] variables
    are as before, the credential folder exists, and the client is told
    nothing. *)
Theorem reconnection_adds_a_socket :
  let n := length (pending σ) in
  let σ' := run σ [ConnectionUpdate s up; Settle n Resolved; Settle n Resolved] in
  wasockets σ' = wasockets σ ++ [mkSock (ws_user w) (ws_client w) true true [] false] ∧
  activeSockets σ' = activeSockets σ ∧
  conns σ' = conns σ ∧
  dirs σ' = {[authPath (ws_user w)]} ∪ dirs σ ∧
  pending σ' = pending σ ++ [None] ∧
  emitted σ' = emitted σ ++ qr_events (ws_client w) up ∧
  unhandled σ' = unhandled σ.
Proof.
  intros n σ'. subst σ'. cbv [run fold_left]. rewrite reconnect_starts.
  unfold relay_qr, qr_events. subst n.
  destruct (truthy (qr up)); simpl; unfold resume; simpl;
    rewrite lookup_app_r, Nat.sub_diag by done; simpl;
    rewrite list_lookup_insert_eq by (rewrite length_app; simpl; lia); simpl;
    rewrite list_insert_insert_eq, insert_app_r_alt, Nat.sub_diag by done;
    simpl; by rewrite ?app_nil_r.
Qed.

(** X9.  A reconnection whose credentials cannot be loaded is not retried:
    no socket is made, the rejection is handled by nobody, the client is
    told nothing, and the entry of the user stays in the registry. *)
Theorem failed_reconnection_is_dropped :
  let n := length (pending σ) in
  let σ' := run σ [ConnectionUpdate s up; Settle n Rejected] in
  wasockets σ' = wasockets σ ∧
  activeSockets σ' = activeSockets σ ∧
  pending σ' = pending σ ++ [None] ∧
  emitted σ' = emitted σ ++ qr_events (ws_client w) up ∧
  unhandled σ' = unhandled σ ++ [ConnectError (ws_user w)].
Proof.
  intros n σ'. subst σ'. cbv [run fold_left]. rewrite reconnect_starts.
  unfold relay_qr, qr_events. subst n.
  destruct (truthy (qr up)); simpl; unfold resume; simpl;
    rewrite lookup_app_r, Nat.sub_diag by done; simpl;
    rewrite insert_app_r_alt, Nat.sub_diag by done;
    simpl; by rewrite ?app_nil_r.
Qed.
End Reconnection.

Lemma reconnection_adds_a_socket_witness :
  let σ := run init Scenario.authenticated in
  let σ' := run σ [ConnectionUpdate 0 (closed_with (Some connectionClosed));
                  Settle 1 Resolved; Settle 1 Resolved] in
  wasockets σ' = wasockets σ ++ [mkSock "u" "A" true true [] false] ∧
  activeSockets σ' = activeSockets σ.
Proof.
  pose proof (reconnection_adds_a_socket (run init Scenario.authenticated) 0
                (mkSock "u" "A" true true ["A"] false)
                (closed_with (Some connectionClosed))) as H.
  assert (H1 : wasockets (run init Scenario.authenticated) !! 0
               = Some (mkSock "u" "A" true true ["A"] false)) by (vm_compute; reflexivity).
  assert (H2 : is_Some (activeSockets (run init Scenario.authenticated) !! "u"))
    by (exists (mkEntry "A" 0); vm_compute; reflexivity).
  assert (H3 : statusCode (closed_with (Some connectionClosed)) ≠ Some loggedOut)
    by (vm_compute; discriminate).
  destruct (H H1 eq_refl eq_refl H2 H3) as (HW & HA & _).
  split; [exact HW | exact HA].
Defined.

Lemma failed_reconnection_is_dropped_witness :
  let σ := run init Scenario.authenticated in
  let σ' := run σ [ConnectionUpdate 0 (closed_with None); Settle 1 Rejected] in
  wasockets σ' = wasockets σ ∧
  unhandled σ' = unhandled σ ++ [ConnectError "u"].
Proof.
  pose proof (failed_reconnection_is_dropped (run init Scenario.authenticated) 0
                (mkSock "u" "A" true true ["A"] false) (closed_with None)) as H.
  assert (H1 : wasockets (run init Scenario.authenticated) !! 0
               = Some (mkSock "u" "A" true true ["A"] false)) by (vm_compute; reflexivity).
  assert (H2 : is_Some (activeSockets (run init Scenario.authenticated) !! "u"))
    by (exists (mkEntry "A" 0); vm_compute; reflexivity).
  assert (H3 : statusCode (closed_with None) ≠ Some loggedOut)
    by (vm_compute; discriminate).
  destruct (H H1 eq_refl eq_refl H2 H3) as (HW & _ & _ & _ & Hu).
  split; [exact HW | exact Hu].
Defined.

(** *** A client leaves *)

Lemma owner_disconnect_removes_entry σ c k u e :
  conns σ !! c = Some k → listening k = true → alive k = true →
  u ∈ on_disconnect k → activeSockets σ !! u = Some e → clientId e = c →
  activeSockets (step σ (ClientDisconnect c)) !! u = None.
Proof.
  intros Hk Hl Ha Hu He Hown. rewrite (disconnect_command σ c k) by done. simpl.
  destruct (activeSockets (run_handlers (teardown c) (on_disconnect k) σ) !! u)
    as [e'|] eqn:E; [|done].
  pose proof (run_teardown_disowns c (on_disconnect k) σ u e' Hu E) as Hne.
  destruct (tame_run_handlers (teardown c) (on_disconnect k) σ (tame_teardown c))
    as (Hsub & _ & _).
  specialize (Hsub u e' E). congruence.
Qed.

(** X10.  When the client that owns the entry of [u] leaves, the entry is
    removed, and an ['auth'] for [u] from another client is then let
    through: it starts a connection and gets no ['already_connected']. *)
Theorem disconnect_frees_the_user σ c k u e c2 k2 :
  conns σ !! c = Some k → listening k = true → alive k = true →
  u ∈ on_disconnect k → activeSockets σ !! u = Some e → clientId e = c →
  conns σ !! c2 = Some k2 → listening k2 = true → alive k2 = true →
  c2 ≠ c → u ≠ "" →
  let σ1 := step σ (ClientDisconnect c) in
  activeSockets σ1 !! u = None ∧
  step σ1 (ClientAuth c2 (Some u)) = suspend (AwaitAuthState FromAuth c2 u) σ1.
Proof.
  intros Hk Hl Ha Hu He Hown Hk2 Hl2 Ha2 Hne Hnonempty σ1.
  assert (activeSockets σ1 !! u = None) as Hfree
      by (by apply (owner_disconnect_removes_entry σ c k u e)).
  split; [done|].
  assert (conns σ1 !! c2 = Some k2) as Hk2'.
  { subst σ1. rewrite (disconnect_command σ c k) by done. simpl.
    rewrite lookup_alter_ne by done.
    by destruct (run_teardown_frame c (on_disconnect k) σ) as (_ & -> & _). }
  simpl. unfold dispatch. rewrite Hk2', Hl2, Ha2. simpl. unfold auth.
  by rewrite truthy_nonempty, Hfree.
Qed.

Lemma disconnect_frees_the_user_witness :
  let σ := run init Runs.two_clients in
  let σ1 := step σ (ClientDisconnect "A") in
  activeSockets σ !! "u" = Some (mkEntry "A" 0) ∧
  activeSockets σ1 !! "u" = None ∧
  step σ1 (ClientAuth "B" (Some "u")) = suspend (AwaitAuthState FromAuth "B" "u") σ1.
Proof.
  assert (Hu : activeSockets (run init Runs.two_clients) !! "u" = Some (mkEntry "A" 0))
    by (vm_compute; reflexivity).
  split; [exact Hu|].
  apply (disconnect_frees_the_user (run init Runs.two_clients) "A"
           (mkConn true (Some 0) ["u"] ["u"] true) "u" (mkEntry "A" 0) "B"
           (mkConn true None [] [] true)).
  - vm_compute; reflexivity.
  - reflexivity.
  - reflexivity.
  - apply list_elem_of_singleton. reflexivity.
  - exact Hu.
  - reflexivity.
  - vm_compute; reflexivity.
  - reflexivity.
  - reflexivity.
  - discriminate.
  - discriminate.
Defined.

(** X11.  A client that leaves while its ['auth'] is still waiting for the
    connection has no ['disconnect'] handler for that user yet (it is
    registered at line 183, after the await).  When the connection is then
    established the entry is written all the same, for a client that is
    gone: a further disconnect of that client changes nothing, and every
    client that asks for the user is answered ['already_connected']. *)
Theorem entry_of_a_client_that_left σ c k u :
  conns σ !! c = Some k → listening k = true → alive k = true →
  u ≠ "" → activeSockets σ !! u = None →
  let n := length (pending σ) in
  let σ' := run σ [ClientAuth c (Some u); ClientDisconnect c;
                  Settle n Resolved; Settle n Resolved] in
  activeSockets σ' !! u = Some (mkEntry c (length (wasockets σ))) ∧
  (alive <$> conns σ' !! c) = Some false ∧
  step σ' (ClientDisconnect c) = σ' ∧
  ∀ c2 k2, conns σ' !! c2 = Some k2 → listening k2 = true → alive k2 = true →
    step σ' (ClientAuth c2 (Some u)) = emit c2 (EvStatus already_connected) σ'.
Proof.
  intros Hk Hl Ha Hu Hfree n σ'.
  set (σ1 := suspend (AwaitAuthState FromAuth c u) σ).
  assert (step σ (ClientAuth c (Some u)) = σ1) as E1.
  { simpl. unfold dispatch. rewrite Hk, Hl, Ha. simpl. unfold auth.
    by rewrite truthy_nonempty, Hfree. }
  set (F := run_handlers (teardown c) (on_disconnect k) σ1).
  assert (step σ1 (ClientDisconnect c) = client_gone c F) as E2
      by (by apply (disconnect_command σ1 c k)).
  destruct (run_teardown_frame c (on_disconnect k) σ1)
    as (_ & HFk & _ & _ & HFp & _ & _ & HFw).
  fold F in HFk, HFp, HFw. simpl in HFk, HFp, HFw.
  assert (activeSockets σ' !! u = Some (mkEntry c (length (wasockets σ)))
          ∧ conns σ' !! c
            = Some (mkConn (listening k) (Some (length (wasockets σ)))
                      (on_disconnect k ++ [u]) (on_listGroups k ++ [u]) false))
    as [HA HK].
  { subst σ'. cbv [run fold_left]. rewrite E1, E2. subst n.
    simpl. unfold resume. simpl. rewrite HFp.
    rewrite lookup_app_r, Nat.sub_diag by done. simpl. rewrite HFp.
    rewrite list_lookup_insert_eq by (rewrite length_app; simpl; lia). simpl.
    unfold after_try. simpl. rewrite HFk, !lookup_alter_eq, Hk. simpl.
    rewrite !lookup_insert_eq, HFw. done. }
  split; [done|]. split; [by rewrite HK|]. split.
  - simpl. unfold dispatch. rewrite HK. simpl. by rewrite andb_false_r.
  - intros c2 k2 Hk2 Hl2 Ha2.
    by apply (auth_rejects_registered_user σ' c2 k2 u
                (mkEntry c (length (wasockets σ)))).
Qed.

Lemma entry_of_a_client_that_left_witness :
  let σ := run init [Connect "A"; Connect "B"] in
  let σ' := run σ [ClientAuth "A" (Some "u"); ClientDisconnect "A";
                  Settle 0 Resolved; Settle 0 Resolved] in
  activeSockets σ' !! "u" = Some (mkEntry "A" 0) ∧
  step σ' (ClientDisconnect "A") = σ' ∧
  step σ' (ClientAuth "B" (Some "u")) = emit "B" (EvStatus already_connected) σ'.
Proof.
  pose proof (entry_of_a_client_that_left (run init [Connect "A"; Connect "B"]) "A"
                (mkConn true None [] [] true) "u") as H.
  assert (H1 : conns (run init [Connect "A"; Connect "B"]) !! "A"
               = Some (mkConn true None [] [] true)) by (vm_compute; reflexivity).
  assert (H2 : "u" ≠ "") by discriminate.
  assert (H3 : activeSockets (run init [Connect "A"; Connect "B"]) !! "u" = None)
    by (vm_compute; reflexivity).
  destruct (H H1 eq_refl eq_refl H2 H3) as (HA & _ & Hd & Hauth).
  split; [exact HA|]. split; [exact Hd|].
  apply (Hauth "B" (mkConn true None [] [] true)); [vm_compute; reflexivity|reflexivity..].
Defined.

(** ** What no event undoes *)

Lemma evolves_refl σ : evolves σ σ.
Proof.
  split; [|split].
  - intros b w Hw. eauto 10.
  - intros c k Hk. exists k. eauto 10.
  - intros u st Hst. eauto.
Qed.

Lemma evolves_trans σ1 σ2 σ3 : evolves σ1 σ2 → evolves σ2 σ3 → evolves σ1 σ3.
Proof.
  intros (S1 & K1 & U1) (S2 & K2 & U2). split; [|split].
  - intros b w Hw.
    destruct (S1 b w Hw) as (w2 & Hw2 & Hu2 & Hc2 & Ho2 & Hr2 & Hm2 & Hx2).
    destruct (S2 b w2 Hw2) as (w3 & Hw3 & Hu3 & Hc3 & Ho3 & Hr3 & Hm3 & Hx3).
    exists w3. split; [done|]. split; [congruence|]. split; [congruence|].
    split; [auto|]. split; [auto|]. split; [by etrans | auto].
  - intros c k Hk. destruct (K1 c k Hk) as (k2 & Hk2 & Hl2 & Hi2 & Ha2 & Hd2 & Hg2).
    destruct (K2 c k2 Hk2) as (k3 & Hk3 & Hl3 & Hi3 & Ha3 & Hd3 & Hg3).
    exists k3. repeat split; [done|congruence|auto|auto|by etrans|by etrans].
  - intros u st Hst. destruct (U1 u st Hst) as (st2 & Hst2 & Hp2).
    destruct (U2 u st2 Hst2) as (st3 & Hst3 & Hp3).
    exists st3. split; [done | by etrans].
Qed.

Lemma evolves_frame σ σ' :
  wasockets σ' = wasockets σ → conns σ' = conns σ → userStores σ' = userStores σ →
  evolves σ σ'.
Proof.
  intros HW HK HU. destruct (evolves_refl σ) as (S & K & U). split; [|split].
  - intros b w Hw. rewrite HW. by apply S.
  - intros c k Hk. rewrite HK. by apply K.
  - intros u st Hst. rewrite HU. by apply U.
Qed.

Lemma stable_alter (f : WASocket → WASocket) b0 σ σ' :
  wasockets σ' = alter f b0 (wasockets σ) →
  (∀ w, ws_user (f w) = ws_user w ∧ ws_client (f w) = ws_client w ∧
        on_connection_update (f w) = on_connection_update w ∧
        on_creds_update (f w) = on_creds_update w ∧
        on_messages_upsert w `prefix_of` on_messages_upsert (f w) ∧
        (ws_closed w = true → ws_closed (f w) = true)) →
  stable σ σ'.
Proof.
  intros HW Hf b w Hw. rewrite HW, list_lookup_alter. case_decide; [subst|eauto 10].
  rewrite Hw. simpl. destruct (Hf w) as (? & ? & Ho & Hr & ? & ?).
  exists (f w). rewrite Ho, Hr. eauto 10.
Qed.

Lemma evolves_release b σ : evolves σ (release b σ).
Proof.
  split; [|apply (evolves_frame σ σ); done].
  eapply stable_alter; [done|]. intros w. simpl. eauto 10.
Qed.

Lemma evolves_makeWASocket c u σ : evolves σ (makeWASocket c u σ).
Proof.
  split; [|apply (evolves_frame σ σ); done].
  intros b w Hw. exists w. simpl. rewrite lookup_app_l; [eauto 10|].
  by eapply lookup_lt_Some.
Qed.

Lemma conns_grow_update c0 (f : Conn → Conn) σ σ' :
  conns σ' = alter f c0 (conns σ) →
  (∀ k, listening (f k) = listening k ∧
        (is_Some (instance k) → is_Some (instance (f k))) ∧
        (alive k = false → alive (f k) = false) ∧
        on_disconnect k `prefix_of` on_disconnect (f k) ∧
        on_listGroups k `prefix_of` on_listGroups (f k)) →
  conns_grow σ σ'.
Proof.
  intros HK Hf c k Hk. rewrite HK, lookup_alter. case_decide; [subst|].
  - rewrite Hk. simpl. exists (f k). split; [done|]. apply Hf.
  - exists k. eauto 10.
Qed.

Lemma evolves_client_gone c σ : evolves σ (client_gone c σ).
Proof.
  split; [apply (evolves_frame σ σ); done|]. split; [|apply (evolves_frame σ σ); done].
  eapply conns_grow_update; [done|]. intros k. simpl. eauto 10.
Qed.

Lemma evolves_auth_connected c u s σ : evolves σ (auth_connected c u s σ).
Proof.
  split; [apply (evolves_frame σ σ); done|]. split; [|apply (evolves_frame σ σ); done].
  eapply conns_grow_update; [done|]. intros k. simpl. eauto 10.
Qed.

Lemma evolves_new_connection c σ : evolves σ (new_connection c σ).
Proof.
  unfold new_connection. destruct (conns σ !! c) eqn:E; [apply evolves_refl|].
  split; [apply (evolves_frame σ σ); done|]. split; [|apply (evolves_frame σ σ); done].
  intros c' k Hk. simpl. rewrite lookup_insert_ne by congruence.
  exists k. eauto 10.
Qed.

Lemma evolves_after_try c u σ : evolves σ (after_try c u σ).
Proof.
  unfold after_try. destruct (conns σ !! c) as [k|] eqn:Ek; [|apply evolves_refl].
  destruct (instance k) as [b|] eqn:Eb; [|by apply evolves_frame].
  split; [|split].
  - eapply stable_alter; [done|]. intros w. simpl.
    repeat split; [by apply prefix_app_r | done].
  - intros c' k' Hk'. simpl. rewrite lookup_insert. case_decide; [subst c'|eauto 10].
    rewrite Ek in Hk'. injection Hk' as <-. eexists. split; [done|]. simpl.
    repeat split; [done|done|by apply prefix_app_r|by apply prefix_app_r].
  - apply (evolves_frame σ σ); done.
Qed.

Lemma evolves_createUserStore u σ : evolves σ (createUserStore u σ).
Proof.
  unfold createUserStore. destruct (userStores σ !! u) eqn:E; [apply evolves_refl|].
  split; [apply (evolves_frame σ σ); done|]. split; [apply (evolves_frame σ σ); done|].
  intros u' st Hst. simpl. rewrite lookup_insert_ne by congruence. eauto.
Qed.

Lemma syncChats_prefix cs : ∀ st, chats st `prefix_of` chats (syncChats cs st).
Proof.
  induction cs as [|c cs IH]; intros st; simpl; [done|].
  destruct (chats_has (id c) st); [apply IH|].
  etrans; [|apply IH]. simpl. by apply prefix_app_r.
Qed.

Lemma evolves_groups_fetched u groups σ : evolves σ (groups_fetched u groups σ).
Proof.
  split; [apply (evolves_frame σ σ); done|]. split; [apply (evolves_frame σ σ); done|].
  intros u' st Hst. simpl. rewrite lookup_alter. case_decide; [subst|eauto].
  rewrite Hst. simpl. eexists. split; [done|]. apply syncChats_prefix.
Qed.

(** Takes the updates of the right-hand state apart, outermost first. *)
Ltac unwind :=
  lazymatch goal with
  | |- evolves ?σ ?σ => apply evolves_refl
  | |- evolves ?σ (?f ?σ1) =>
      apply (evolves_trans σ σ1 (f σ1));
      [unwind | first [ by apply evolves_frame
                      | apply evolves_release
                      | apply evolves_makeWASocket
                      | apply evolves_client_gone
                      | apply evolves_auth_connected
                      | apply evolves_after_try
                      | apply evolves_createUserStore
                      | apply evolves_groups_fetched ]]
  end.

Lemma evolves_run_handlers h users : ∀ σ,
  (∀ u σ, evolves σ (h u σ)) → evolves σ (run_handlers h users σ).
Proof.
  induction users as [|u users IH]; intros σ Hh; simpl; [apply evolves_refl|].
  eapply evolves_trans; [apply Hh | by apply IH].
Qed.

Lemma evolves_teardown c u σ : evolves σ (teardown c u σ).
Proof.
  unfold teardown. destruct (activeSockets σ !! u); [|unwind].
  destruct (String.eqb _ c); [|unwind].
  destruct (conns σ !! c ≫= instance); unwind.
Qed.

Lemma evolves_listGroups c u σ : evolves σ (listGroups c u σ).
Proof. unfold listGroups. destruct (getUserStore u σ); unwind. Qed.

Lemma evolves_connection_update s up σ : evolves σ (connection_update s up σ).
Proof.
  unfold connection_update. destruct (wasockets σ !! s) as [w|]; [|unwind].
  destruct (on_connection_update w); [|unwind].
  eapply evolves_trans with (relay_qr (ws_client w) up σ).
  { unfold relay_qr. destruct (truthy (qr up)); unwind. }
  destruct (connection up) as [[]|]; try unwind.
  - unfold on_open. unwind.
  - unfold on_close, connectWhatsApp.
    destruct (activeSockets _ !! _); [|unwind].
    destruct (shouldReconnect up); [unwind|].
    case_bool_decide; unwind.
Qed.

Lemma evolves_resume i r σ : evolves σ (resume i r σ).
Proof.
  unfold resume.
  destruct (pending σ !! i) as [[[who c u|who c u|s u|c b g m]|]|]; try unwind;
    destruct r; try destruct who; simpl; unfold auth_failed; unwind.
Qed.

Lemma evolves_step σ e : evolves σ (step σ e).
Proof.
  destruct e; simpl;
    try apply evolves_new_connection; try apply evolves_connection_update;
    try apply evolves_resume;
    unfold dispatch, messages_upsert, store_flush;
    repeat (lazymatch goal with
            | |- evolves _ (match ?x with _ => _ end) => destruct x
            end); try unwind.
  - unfold auth, connectWhatsApp. destruct (truthy userId); [|unwind].
    destruct (activeSockets σ !! _); unwind.
  - unfold sendMessage. destruct (conns σ !! c ≫= instance); unwind.
  - apply evolves_run_handlers, evolves_listGroups.
  - eapply evolves_trans; [apply evolves_run_handlers, evolves_teardown|].
    apply evolves_client_gone.
  - destruct (relay_messages_frame payload (on_messages_upsert w) σ)
      as (_ & HU & HK & HW & _).
    by apply evolves_frame.
Qed.

Lemma evolves_run events : ∀ σ, evolves σ (run σ events).
Proof.
  induction events as [|e events IH]; intros σ; simpl; [apply evolves_refl|].
  eapply evolves_trans; [apply evolves_step | apply IH].
Qed.





(** X14.  No event unregisters a handler: the ['disconnect'] and
    ['listGroups'] handlers a client has stay registered, in order, and
    later ones are added behind them. *)
Theorem handlers_are_never_removed σ c k events :
  conns σ !! c = Some k →
  ∃ k', conns (run σ events) !! c = Some k' ∧
        on_disconnect k `prefix_of` on_disconnect k' ∧
        on_listGroups k `prefix_of` on_listGroups k'.
Proof.
  intros Hk. destruct (evolves_run events σ) as (_ & K & _).
  destruct (K c k Hk) as (k' & Hk' & _ & _ & _ & Hd & Hg). eauto.
Qed.

Lemma handlers_are_never_removed_witness :
  let σ := run init Scenario.authenticated in
  let σ' := run σ [ConnectionUpdate 0 (closed_with (Some loggedOut));
                  ClientAuth "A" (Some "u"); Settle 1 Resolved; Settle 1 Resolved] in
  ∃ k', conns σ' !! "A" = Some k' ∧
        ["u"] `prefix_of` on_disconnect k' ∧ ["u"] `prefix_of` on_listGroups k'.
Proof.
  apply (handlers_are_never_removed (run init Scenario.authenticated) "A"
           (mkConn true (Some 0) ["u"] ["u"] true)).
  vm_compute; reflexivity.
Defined.

Lemma chats_get_prefix j st st' ch :
  chats st `prefix_of` chats st' →
  chats_get j st = Some ch → chats_get j st' = Some ch.
Proof.
  intros [l Hl]. unfold chats_get. rewrite Hl. clear Hl.
  induction (chats st) as [|x xs IH]; simpl; [done|].
  destruct (String.eqb (id x) j); [done | exact IH].
Qed.

(** X15.  A store, once created, is never removed, and no chat is ever
    taken out of it or replaced: whatever happens, every chat it holds is
    still in it and is still what a lookup of its id returns. *)
Theorem store_never_loses_a_chat σ u st events :
  userStores σ !! u = Some st →
  ∃ st', userStores (run σ events) !! u = Some st' ∧
         (∀ ch, ch ∈ chats st → ch ∈ chats st') ∧
         (∀ j ch, chats_get j st = Some ch → chats_get j st' = Some ch).
Proof.
  intros Hst. destruct (evolves_run events σ) as (_ & _ & U).
  destruct (U u st Hst) as (st' & Hst' & Hpre). exists st'. split; [done|]. split.
  - intros ch Hch. destruct Hpre as [l ->]. apply elem_of_app. by left.
  - intros j ch. by apply chats_get_prefix.
Qed.

Lemma store_never_loses_a_chat_witness :
  let σ := run init Runs.synced in
  let σ' := run σ [ConnectionUpdate 0 (closed_with (Some loggedOut));
                  ClientDisconnect "A"] in
  ∃ st', userStores σ' !! "u" = Some st' ∧
         (∀ ch, ch ∈ [toChat Scenario.g1; toChat Scenario.g2] → ch ∈ chats st').
Proof.
  destruct (store_never_loses_a_chat (run init Runs.synced) "u"
              (mkStore [toChat Scenario.g1; toChat Scenario.g2])
              [ConnectionUpdate 0 (closed_with (Some loggedOut)); ClientDisconnect "A"])
    as (st' & Hst' & Hin & _); [vm_compute; reflexivity|].
  exists st'. split; [exact Hst' | exact Hin].
Defined.

(** ** Where entries and listeners come from *)

Lemma activeSockets_after_try c u σ :
  activeSockets (after_try c u σ) = activeSockets σ.
Proof.
  unfold after_try. destruct (conns σ !! c) as [k|]; [|done].
  by destruct (instance k).
Qed.

Lemma wasockets_length_after_try c u σ :
  length (wasockets (after_try c u σ)) = length (wasockets σ).
Proof.
  unfold after_try. destruct (conns σ !! c) as [k|]; [|done].
  destruct (instance k); simpl; [by rewrite length_alter | done].
Qed.

Lemma resume_established σ i r c u :
  pending σ !! i = Some (Some (AwaitVersion FromAuth c u)) → r ≠ Rejected →
  resume i r σ
  = after_try c u (auth_connected c u (length (wasockets σ))
                     (makeWASocket c u (finish i σ))).
Proof. intros Hp Hr. unfold resume. rewrite Hp. by destruct r. Qed.

Lemma tame_step_other σ e :
  (∀ i r, e ≠ Settle i r) → tame σ (step σ e).
Proof.
  intros Hne. destruct e; simpl.
  - apply tame_new_connection.
  - apply tame_dispatch. intros _ σ0.
    unfold auth, connectWhatsApp. destruct (truthy userId); [|auto with relay].
    destruct (activeSockets σ0 !! _); auto with relay.
  - apply tame_dispatch. intros _ σ0.
    unfold sendMessage. destruct (conns σ0 !! c ≫= instance); auto with relay.
  - apply tame_dispatch. intros k σ0. apply tame_run_handlers, tame_listGroups.
  - apply tame_dispatch. intros k σ0.
    eapply tame_trans; [|apply tame_client_gone].
    apply tame_run_handlers, tame_teardown.
  - apply tame_connection_update.
  - apply tame_messages_upsert.
  - by destruct (Hne task r).
  - unfold store_flush.
    destruct (userStores σ !! userId); [by apply tame_frame | apply tame_refl].
  - apply tame_dispatch. intros _ σ0. apply tame_reject.
  - apply tame_dispatch. intros _ σ0. apply tame_reject.
Qed.

Lemma entry_kept_or_removed σ e u ent :
  (∀ i r, e ≠ Settle i r) →
  activeSockets (step σ e) !! u = Some ent → activeSockets σ !! u = Some ent.
Proof. intros Hne. destruct (tame_step_other σ e Hne) as (Hsub & _). apply Hsub. Qed.

Lemma entry_provenance σ e u ent :
  activeSockets (step σ e) !! u = Some ent →
  activeSockets σ !! u = Some ent ∨ entry_written σ e u ent.
Proof.
  intros Hent.
  destruct e as [c|c userId|c g m|c|c|s up|s payload|i r|userId|c|c];
    try (left; refine (entry_kept_or_removed σ _ u ent _ Hent);
         intros ? ? ?; discriminate).
  simpl in Hent.
  destruct (pending σ !! i) as [[[who c0 u0|who c0 u0|s0 u0|c0 b0 g0 m0]|]|] eqn:Hp;
    unfold resume in Hent; rewrite Hp in Hent; try (by left).
  - left. destruct r, who; simpl in Hent;
      rewrite ?activeSockets_after_try in Hent; done.
  - destruct who; [|left; by destruct r].
    assert (r = Rejected ∨
            (r ≠ Rejected ∧
             activeSockets (after_try c0 u0
               (auth_connected c0 u0 (length (wasockets σ))
                  (makeWASocket c0 u0 (finish i σ)))) !! u = Some ent))
      as [->|[Hr Hent']] by (destruct r; auto).
    { left. simpl in Hent. by rewrite activeSockets_after_try in Hent. }
    rewrite activeSockets_after_try in Hent'. simpl in Hent'.
    rewrite lookup_insert in Hent'. case_decide; [subst u0|by left].
    injection Hent' as <-. right. by exists i, r, c0.
  - left. by destruct r.
  - left. by destruct r.
Qed.

(** X16.  An entry of the registry is written in one place only: when the
    last await of an ['auth'] resolves (lines 170-171), for the user and
    the client of that request, with the socket just made.  Any other
    entry a step leaves behind was there before, unchanged. *)
Theorem entries_are_written_by_auth_only σ e u ent :
  activeSockets (step σ e) !! u = Some ent →
  activeSockets σ !! u = Some ent ∨
  ∃ i r c, e = Settle i r ∧ r ≠ Rejected ∧
           pending σ !! i = Some (Some (AwaitVersion FromAuth c u)) ∧
           ent = mkEntry c (length (wasockets σ)).
Proof. apply entry_provenance. Qed.

Lemma entries_are_written_by_auth_only_witness :
  let σ := run init (take 3 Scenario.authenticated) in
  activeSockets σ !! "u" = None ∧
  pending σ !! 0 = Some (Some (AwaitVersion FromAuth "A" "u")) ∧
  activeSockets (step σ (Settle 0 Resolved)) !! "u" = Some (mkEntry "A" 0).
Proof.
  assert (H0 : activeSockets (run init (take 3 Scenario.authenticated)) !! "u" = None)
    by (vm_compute; reflexivity).
  assert (H1 : activeSockets (step (run init (take 3 Scenario.authenticated))
                                (Settle 0 Resolved)) !! "u" = Some (mkEntry "A" 0))
    by (vm_compute; reflexivity).
  destruct (entries_are_written_by_auth_only _ _ _ _ H1)
    as [Hold | (i & r & c & [= <- <-] & _ & Hp & [= <-])].
  - rewrite H0 in Hold. discriminate Hold.
  - split; [exact H0|]. split; [exact Hp | exact H1].
Defined.

Lemma entries_match_step σ e : entries_match σ → entries_match (step σ e).
Proof.
  intros Hσ u ent Hent.
  destruct (entry_provenance σ e u ent Hent) as [Hold|(i & r & c & -> & Hr & Hp & ->)].
  - destruct (Hσ u ent Hold) as (w & Hw & Hu & Hc).
    destruct (evolves_step σ e) as (S & _).
    destruct (S _ w Hw) as (w' & Hw' & Hu' & Hc' & _).
    exists w'. split; [done|]. split; congruence.
  - simpl. rewrite (resume_established σ i r c u Hp Hr).
    set (σa := auth_connected c u (length (wasockets σ)) (makeWASocket c u (finish i σ))).
    assert (wasockets σa !! length (wasockets σ) = Some (mkSock u c true true [] false))
      as Hnew.
    { simpl. by rewrite lookup_app_r, Nat.sub_diag. }
    destruct (evolves_after_try c u σa) as (S & _).
    destruct (S _ _ Hnew) as (w' & Hw' & Hu' & Hc' & _).
    exists w'. done.
Qed.

Lemma reachable_entries_match σ : reachable σ → entries_match σ.
Proof.
  induction 1; [|by apply entries_match_step].
  intros u e He. simpl in He. by rewrite lookup_empty in He.
Qed.

(** X17.  In every state the relay reaches, the instance stored in the
    entry of a user is a socket that exists, was opened for that very user,
    and was opened by the client the entry records. *)
Theorem entry_names_a_socket_of_its_user σ u e :
  reachable σ → activeSockets σ !! u = Some e →
  ∃ w, wasockets σ !! baileysInstance e = Some w ∧
       ws_user w = u ∧ ws_client w = clientId e.
Proof. intros Hσ He. by apply (reachable_entries_match σ Hσ). Qed.

Lemma entry_names_a_socket_of_its_user_witness :
  let σ := run init Scenario.two_owners in
  ∃ w, wasockets σ !! 2 = Some w ∧ ws_user w = "v" ∧ ws_client w = "A".
Proof.
  apply (entry_names_a_socket_of_its_user (run init Scenario.two_owners) "v"
           (mkEntry "A" 2)).
  - apply reachable_run. constructor.
  - vm_compute; reflexivity.
Defined.

(** *** Messages go home *)

Lemma relays_home_frame σ σ' :
  wasockets σ' = wasockets σ → relays_home σ → relays_home σ'.
Proof. intros HW H b w. rewrite HW. apply H. Qed.

Lemma relays_home_makeWASocket c u σ : relays_home σ → relays_home (makeWASocket c u σ).
Proof.
  intros H b w. simpl. intros [Hw|[_ Hw]]%lookup_app_Some; [by apply (H b)|].
  apply list_lookup_singleton_Some in Hw as [_ <-]. simpl. constructor.
Qed.

Lemma relays_home_release b0 σ : relays_home σ → relays_home (release b0 σ).
Proof.
  intros H b w. simpl. rewrite list_lookup_alter. case_decide; [subst|apply H].
  destruct (wasockets σ !! b) as [w0|] eqn:Ew; [|done]. simpl. intros [= <-].
  simpl. by apply (H b).
Qed.

Lemma relays_home_after_try c u σ :
  owns σ → relays_home σ → relays_home (after_try c u σ).
Proof.
  intros [I1 _] H. unfold after_try. destruct (conns σ !! c) as [k|] eqn:Ek; [|done].
  destruct (instance k) as [b0|] eqn:Eb; [|done].
  intros b w. simpl. rewrite list_lookup_alter. case_decide; [subst|apply H].
  destruct (wasockets σ !! b) as [w0|] eqn:Ew; [|done]. simpl. intros [= <-]. simpl.
  apply Forall_app. split; [by apply (H b)|].
  apply Forall_singleton. specialize (I1 c k b Ek Eb).
  unfold sock_client in I1. rewrite Ew in I1. by injection I1.
Qed.

Lemma relays_home_teardown c u σ : relays_home σ → relays_home (teardown c u σ).
Proof.
  intros H. unfold teardown. destruct (activeSockets σ !! u); [|done].
  destruct (String.eqb _ c); [|done].
  destruct (conns σ !! c ≫= instance); [|done].
  apply relays_home_release. by apply (relays_home_frame σ).
Qed.

Lemma relays_home_run_teardown c users : ∀ σ,
  relays_home σ → relays_home (run_handlers (teardown c) users σ).
Proof.
  induction users as [|u users IH]; intros σ H; simpl; [done|].
  by apply IH, relays_home_teardown.
Qed.

Lemma relays_home_connect_threw who c u i σ :
  owns σ → relays_home σ → relays_home (connect_threw who c u (finish i σ)).
Proof.
  intros Ho H. destruct who; simpl; [|done].
  apply relays_home_after_try; [|done].
  eapply owns_tame; [|exact Ho]. by apply tame_frame.
Qed.

Lemma relays_home_resume i r σ : owns σ → relays_home σ → relays_home (resume i r σ).
Proof.
  intros Ho H. unfold resume.
  destruct (pending σ !! i) as [[[who c u|who c u|s u|c b g m]|]|]; try done.
  - destruct r; try done; by apply relays_home_connect_threw.
  - assert (relays_home (connect_returned who c u (length (wasockets σ))
                           (makeWASocket c u (finish i σ)))) as Hret.
    { destruct who; simpl.
      - apply relays_home_after_try.
        + apply (owns_auth_connected c u (finish i σ)).
          eapply owns_tame; [apply tame_finish | done].
        + apply (relays_home_frame (makeWASocket c u (finish i σ))); [done|].
          by apply relays_home_makeWASocket.
      - by apply relays_home_makeWASocket. }
    destruct r; try done. by apply relays_home_connect_threw.
  - by destruct r.
  - by destruct r.
Qed.

Lemma relays_home_step σ e : owns σ → relays_home σ → relays_home (step σ e).
Proof.
  intros Ho H. destruct e; simpl.
  - unfold new_connection. by destruct (conns σ !! c).
  - unfold dispatch, auth. destruct (conns σ !! c) as [k|]; [|done].
    destruct (listening k && alive k); [|done].
    destruct (truthy userId); [|done]. by destruct (activeSockets σ !! _).
  - unfold dispatch, sendMessage. destruct (conns σ !! c) as [k|] eqn:E; [|done].
    destruct (listening k && alive k); [|done]. simpl.
    by destruct (instance k).
  - unfold dispatch. destruct (conns σ !! c) as [k|]; [|done].
    destruct (listening k && alive k); [|done].
    apply (relays_home_frame σ); [|done].
    by destruct (run_listGroups_frame c (on_listGroups k) σ) as (_ & _ & -> & _).
  - unfold dispatch. destruct (conns σ !! c) as [k|]; [|done].
    destruct (listening k && alive k); [|done].
    apply (relays_home_frame (run_handlers (teardown c) (on_disconnect k) σ)); [done|].
    by apply relays_home_run_teardown.
  - unfold connection_update. destruct (wasockets σ !! s) as [w|]; [|done].
    destruct (on_connection_update w); [|done].
    apply (relays_home_frame σ); [|done].
    unfold relay_qr, on_close, on_open, connectWhatsApp, createUserStore.
    destruct (truthy (qr up)), (connection up) as [[]|]; simpl;
      repeat case_match; done.
  - unfold messages_upsert. destruct (wasockets σ !! s) as [w|]; [|done].
    apply (relays_home_frame σ); [|done].
    by destruct (relay_messages_frame payload (on_messages_upsert w) σ)
      as (_ & _ & _ & -> & _).
  - by apply relays_home_resume.
  - unfold store_flush. by destruct (userStores σ !! userId).
  - unfold dispatch. destruct (conns σ !! c) as [k|]; [|done].
    by destruct (listening k && alive k).
  - unfold dispatch. destruct (conns σ !! c) as [k|]; [|done].
    by destruct (listening k && alive k).
Qed.

Lemma reachable_relays_home σ : reachable σ → relays_home σ.
Proof.
  induction 1 as [d f|σ e Hσ IH].
  - intros b w Hw. simpl in Hw. by rewrite lookup_nil in Hw.
  - apply relays_home_step; [by apply reachable_owns | done].
Qed.

(** X18.  Messages never cross over to another client: in every state the
    relay reaches, a ['messages.upsert'] of a socket is relayed, once per
    listener of lines 178-181, to the client whose connection made the
    socket and to nobody else, and changes nothing but that. *)
Theorem messages_reach_only_the_socket_owner σ s w payload :
  reachable σ → wasockets σ !! s = Some w →
  let σ' := step σ (MessagesUpsert s payload) in
  emitted σ' = emitted σ ++ map (λ _, (ws_client w, EvMessage payload))
                              (on_messages_upsert w) ∧
  activeSockets σ' = activeSockets σ ∧
  wasockets σ' = wasockets σ ∧
  pending σ' = pending σ.
Proof.
  intros Hσ Hw σ'. subst σ'. simpl. unfold messages_upsert. rewrite Hw.
  destruct (relay_messages_frame payload (on_messages_upsert w) σ)
    as (-> & _ & _ & -> & _ & _ & -> & _ & ->).
  split; [|done]. f_equal.
  pose proof (reachable_relays_home σ Hσ s w Hw) as Hall.
  induction Hall as [|c l -> _ IH]; simpl; [done | by rewrite IH].
Qed.

Lemma messages_reach_only_the_socket_owner_witness :
  let σ := run init Scenario.two_owners in
  emitted (step σ (MessagesUpsert 1 "hello")) = emitted σ ++ [("B", EvMessage "hello")].
Proof.
  destruct (messages_reach_only_the_socket_owner (run init Scenario.two_owners) 1
              (mkSock "u" "B" true true ["B"] false) "hello") as (He & _).
  - apply reachable_run. constructor.
  - vm_compute; reflexivity.
  - exact He.
Defined.
